(** * Gantt Viewer Pro: the CPM scheduling kernel of [src/app/page.tsx]

    A shallow embedding of [simulateScenario], [parseLinkToken] and the
    scenario-library handlers, and the properties of the specification that
    were checked against them.

    Modelling conventions.
    - JavaScript numbers are modelled as exact integers ([Z]): activity ids,
      durations and lags are whole numbers (of days), timestamps are whole
      milliseconds since the epoch.  IEEE-754 rounding, [NaN] and the
      infinities are not values of the model; a cell that is absent or does
      not convert to a finite number is [None].
    - A date-only string ["YYYY-MM-DD"] is modelled by its day number (days
      since 1970-01-01, UTC).  [new Date("YYYY-MM-DD").getTime()] is then
      [day * DAY_MS] and [new Date(ms).toISOString().slice(0, 10)] is the day
      [ms / DAY_MS] (rounded down).
    - [Date.now()] is an explicit argument [now] of [simulateScenario].
    - A JS [Map] is an insertion-ordered list of keys together with a finite
      map ([gmap]) holding the current value of each key; objects stored in
      it are mutated by updating the finite map. *)

From Stdlib Require Import ZArith Lia Ascii String.
From stdpp Require Import base option list gmap strings sorting.

#[local] Open Scope Z_scope.

(** ** Primitive helpers *)

Definition DAY_MS : Z := 24 * 60 * 60 * 1000.

(** [Math.round(x / d)] for an integer [x] and a positive [d]: JavaScript
    rounds halves towards plus infinity. *)
Definition round_div (x d : Z) : Z := (2 * x + d) / (2 * d).

(** [a ?? b] *)
Definition nullish {A} (a : option A) (b : A) : A := default b a.
Infix "??" := nullish (at level 45, left associativity).

(** ** Data model *)

(** A schedule row, as held in the [rows] state of the page.  [ES], [EF],
    [LS], [LF] are date-only strings (day numbers) or absent; [rest] stands for
    every other own property of the object (task name, milestone flag,
    percent complete, WBS level, ...), which the kernel copies with
    [{...row}]. *)
Record Row := mkRow {
  ActivityID : option Z;
  ES : option Z;
  EF : option Z;
  LS : option Z;
  LF : option Z;
  DurDays : option Z;
  TotalFloat_d : option Z;
  FreeFloat_d : option Z;
  rest : list (string * string)
}.

Inductive RelType := FS | SS | FF | SF.

#[global] Instance RelType_eq_dec : EqDecision RelType.
Proof. solve_decision. Defined.

(** A relationship row as extracted from the workbook: [RelType] is still a
    string, [Lag_d] may be absent or not a number. *)
Record Rel := mkRel {
  PredID : Z;
  SuccID : Z;
  RelTypeRaw : string;
  Lag_d : option Z
}.

(** A relationship after [{ ...rel, RelType: normalizeRelType(rel.RelType) }]. *)
Record Edge := mkEdge {
  ePred : Z;
  eSucc : Z;
  eType : RelType;
  eLag : option Z
}.

Record Impact := mkImpact {
  activityId : option Z;
  deltaDays : option Z
}.

(** The working object [simulateScenario] builds per row.  Timestamps are in
    milliseconds. *)
Record Task := mkTask {
  row : Row;
  id : Z;
  idx : nat;
  duration : Z;
  baseES : option Z;
  baseEF : option Z;
  baseLS : option Z;
  baseLF : option Z;
  tES : option Z;
  tEF : option Z;
  tLS : option Z;
  tLF : option Z;
  tTotalFloat_d : option Z;
  tFreeFloat_d : option Z
}.

(** ** [parseDate], [deriveDurationDays], [toISODate], [normalizeRelType] *)

(** [parseDate(d)?.getTime()] on a date-only cell. *)
Definition parseDate (d : option Z) : option Z := (λ day, day * DAY_MS) <$> d.

Definition deriveDurationDays (r : Row) : Z :=
  match DurDays r with
  | Some dur => if bool_decide (0 ≤ dur) then dur else
      match parseDate (ES r), parseDate (EF r) with
      | Some es, Some ef => Z.max 0 (round_div (ef - es) DAY_MS)
      | _, _ => 0
      end
  | None =>
      match parseDate (ES r), parseDate (EF r) with
      | Some es, Some ef => Z.max 0 (round_div (ef - es) DAY_MS)
      | _, _ => 0
      end
  end.

(** [toISODate(ms)]: [undefined] for a value that is not a finite number,
    else the UTC day of the instant. *)
Definition toISODate (ms : option Z) : option Z := (λ v, v / DAY_MS) <$> ms.

Definition upper_ascii (c : ascii) : ascii :=
  let n := nat_of_ascii c in
  if bool_decide (97 ≤ n ≤ 122)%nat then ascii_of_nat (n - 32) else c.

Fixpoint toUpperCase (s : string) : string :=
  match s with
  | EmptyString => EmptyString
  | String c s' => String (upper_ascii c) (toUpperCase s')
  end.

Definition relType_of_code (s : string) : option RelType :=
  if String.eqb s "FS" then Some FS
  else if String.eqb s "SS" then Some SS
  else if String.eqb s "FF" then Some FF
  else if String.eqb s "SF" then Some SF
  else None.

(** [String(type || "FS").toUpperCase()], looked up in the four codes. *)
Definition normalizeRelType (type : string) : RelType :=
  let t := toUpperCase (if String.eqb type EmptyString then "FS" else type) in
  relType_of_code t ?? FS.

(** ** [simulateScenario] *)

(** [a ?? b] where [b] may itself be absent. *)
Definition orElse {A} (a b : option A) : option A :=
  match a with Some _ => a | None => b end.

(** [Math.min(limit, x)] where [limit] starts at [Infinity] ([None]). *)
Definition min_limit (limit : option Z) (x : Z) : option Z :=
  Some (match limit with Some l => Z.min l x | None => x end).

(** Field assignments on a task object. *)
Definition set_base (t : Task) (bES bEF : option Z) : Task :=
  mkTask (row t) (id t) (idx t) (duration t) bES bEF (baseLS t) (baseLF t)
         (tES t) (tEF t) (tLS t) (tLF t) (tTotalFloat_d t) (tFreeFloat_d t).

Definition set_duration (t : Task) (d : Z) : Task :=
  mkTask (row t) (id t) (idx t) d (baseES t) (baseEF t) (baseLS t) (baseLF t)
         (tES t) (tEF t) (tLS t) (tLF t) (tTotalFloat_d t) (tFreeFloat_d t).

Definition set_early (t : Task) (es ef : Z) : Task :=
  mkTask (row t) (id t) (idx t) (duration t) (baseES t) (baseEF t) (baseLS t) (baseLF t)
         (Some es) (Some ef) (tLS t) (tLF t) (tTotalFloat_d t) (tFreeFloat_d t).

Definition set_late (t : Task) (lf ls : Z) : Task :=
  mkTask (row t) (id t) (idx t) (duration t) (baseES t) (baseEF t) (baseLS t) (baseLF t)
         (tES t) (tEF t) (Some ls) (Some lf) (tTotalFloat_d t) (tFreeFloat_d t).

Definition set_floats (t : Task) (tf ff : Z) : Task :=
  mkTask (row t) (id t) (idx t) (duration t) (baseES t) (baseEF t) (baseLS t) (baseLF t)
         (tES t) (tEF t) (tLS t) (tLF t) (Some tf) (Some ff).

(** *** Construction of [idMap] *)

(** The object [rows.map] builds for the row at index [i] whose
    [Number(row.ActivityID)] is the finite number [k].  (Rows whose id is not
    finite also get an object in [tasks], but it is never read again.) *)
Definition new_task (i : nat) (r : Row) (k : Z) : Task :=
  {| row := r; id := k; idx := i;
     duration := deriveDurationDays r;
     baseES := parseDate (ES r); baseEF := parseDate (EF r);
     baseLS := parseDate (LS r); baseLF := parseDate (LF r);
     tES := None; tEF := None; tLS := None; tLF := None;
     tTotalFloat_d := Some (TotalFloat_d r ?? 0);
     tFreeFloat_d := Some (FreeFloat_d r ?? 0) |}.

(** [idMap]: the keys in insertion order and the object stored under each. *)
Record IdMap := mkIdMap { keys : list Z; tbl : gmap Z Task }.

(** [idMap.set(k, t)]: a key already present keeps its position. *)
Definition idMap_set (k : Z) (t : Task) (m : IdMap) : IdMap :=
  {| keys := if bool_decide (k ∈ keys m) then keys m else keys m ++ [k];
     tbl := <[k := t]> (tbl m) |}.

Definition build_idMap (rows : list Row) : IdMap :=
  fold_left (λ m ir,
      match ActivityID ir.2 with
      | Some k => idMap_set k (new_task ir.1 ir.2 k) m
      | None => m
      end)
    (imap pair rows) (mkIdMap [] ∅).

(** *** Default epoch and base dates *)

Definition min_baseES (m : IdMap) : option Z :=
  fold_left (λ acc k,
      match tbl m !! k ≫= baseES with
      | Some b => min_limit acc b
      | None => acc
      end)
    (keys m) None.

Definition defaultStart (now : Z) (m : IdMap) : Z := min_baseES m ?? now.

Definition fill_base (ds : Z) (t : Task) : Task :=
  let bES := baseES t ?? ds in
  set_base t (Some bES) (Some (baseEF t ?? (bES + duration t * DAY_MS))).

(** *** The scenario impact *)

Definition apply_impact (impact : option Impact) (tb : gmap Z Task) : gmap Z Task :=
  match impact with
  | Some imp =>
      match activityId imp with
      | Some a =>
          match tb !! a with
          | Some hit =>
              let delta := deltaDays imp ?? 0 in
              <[a := set_duration hit (Z.max 0 (duration hit + delta))]> tb
          | None => tb
          end
      | None => tb
      end
  | None => tb
  end.

(** *** Edges, successor lists and in-degrees *)

Definition normalize_rel (r : Rel) : Edge :=
  {| ePred := PredID r; eSucc := SuccID r;
     eType := normalizeRelType (RelTypeRaw r); eLag := Lag_d r |}.

Definition make_edges (tb : gmap Z Task) (rels : list Rel) : list Edge :=
  normalize_rel <$>
    filter (λ r, is_Some (tb !! PredID r) ∧ is_Some (tb !! SuccID r)) rels.

(** [push(map, key, value)] *)
Definition push (m : gmap Z (list Edge)) (k : Z) (v : Edge) : gmap Z (list Edge) :=
  <[k := (m !! k ?? []) ++ [v]]> m.

Definition build_succMap (edges : list Edge) : gmap Z (list Edge) :=
  fold_left (λ m e, push m (ePred e) e) edges ∅.

Definition init_indegree (ks : list Z) : gmap Z Z :=
  list_to_map ((λ k, (k, 0)) <$> ks).

Definition build_indegree (ks : list Z) (edges : list Edge) : gmap Z Z :=
  fold_left (λ m e, <[eSucc e := (m !! eSucc e ?? 0) + 1]> m) edges (init_indegree ks).

(** *** The ready queue and its ordering *)

(** [a.baseES ?? 0] for the task object with key [k]. *)
Definition sortKey (tb : gmap Z Task) (k : Z) : Z := (tb !! k ≫= baseES) ?? 0.

Fixpoint insert_by (key : Z → Z) (x : Z) (l : list Z) : list Z :=
  match l with
  | [] => [x]
  | y :: l' => if bool_decide (key x ≤ key y) then x :: l else y :: insert_by key x l'
  end.

(** [Array.prototype.sort] with the comparator [key a - key b]; the sort is
    stable, so elements with equal keys keep their order. *)
Definition sort_by (key : Z → Z) (l : list Z) : list Z := foldr (insert_by key) [] l.

Definition init_queue (ks : list Z) (tb : gmap Z Task) (indeg : gmap Z Z) : list Z :=
  sort_by (sortKey tb) (filter (λ k, indeg !! k ?? 0 = 0) ks).

(** *** Forward pass *)

(** The mutable state of the [while (queue.length)] loop.  The queue holds
    references to task objects, modelled by their keys. *)
Record FState := mkF {
  queue : list Z;
  pending : gmap Z Z;
  indegree : gmap Z Z;
  topo : list Z;
  tasks : gmap Z Task
}.

(** The constraint an edge puts on its successor's early start, from the
    dates [es], [ef] of the activity being popped. *)
Definition needed_of (es ef succ_duration : Z) (rel : Edge) : Z :=
  let lagMs := (eLag rel ?? 0) * DAY_MS in
  match eType rel with
  | SS => es + lagMs
  | FF => ef + lagMs - succ_duration * DAY_MS
  | SF => es + lagMs - succ_duration * DAY_MS
  | FS => ef + lagMs
  end.

(** One iteration of [for (const rel of succMap.get(current.id) || [])]. *)
Definition relax_edge (es ef : Z) (st : FState) (rel : Edge) : FState :=
  match tasks st !! eSucc rel with
  | None => st
  | Some succ =>
      let needed := needed_of es ef (duration succ) rel in
      let pending' :=
        <[id succ := match pending st !! id succ with
                     | Some prev => Z.max prev needed
                     | None => needed
                     end]> (pending st) in
      let deg := (indegree st !! id succ ?? 0) - 1 in
      let indegree' := <[id succ := deg]> (indegree st) in
      let queue' :=
        if bool_decide (deg = 0)
        then sort_by (sortKey (tasks st)) (queue st ++ [id succ])
        else queue st in
      mkF queue' pending' indegree' (topo st) (tasks st)
  end.

(** The body of the [while] loop for the popped key [cur]; [st] already has
    the queue shifted. *)
Definition pop_step (ds : Z) (succMap : gmap Z (list Edge)) (cur : Z) (st : FState) : FState :=
  match tasks st !! cur with
  | None => st
  | Some current =>
      let base := baseES current ?? ds in
      let start :=
        match pending st !! id current with
        | Some startReq => Z.max startReq base
        | None => base
        end in
      let finish := start + duration current * DAY_MS in
      let st1 := mkF (queue st) (pending st) (indegree st)
                     (topo st ++ [id current])
                     (<[cur := set_early current start finish]> (tasks st)) in
      fold_left (relax_edge start finish) (succMap !! id current ?? []) st1
  end.

Fixpoint forward_loop (fuel : nat) (ds : Z) (succMap : gmap Z (list Edge)) (st : FState) : FState :=
  match fuel with
  | O => st
  | S fuel' =>
      match queue st with
      | [] => st
      | cur :: q =>
          forward_loop fuel' ds succMap
            (pop_step ds succMap cur (mkF q (pending st) (indegree st) (topo st) (tasks st)))
      end
  end.

(** The fallback for the activities the loop never popped. *)
Definition fallback_early (ds : Z) (t : Task) : Task :=
  match tES t with
  | Some _ => t
  | None => let es := baseES t ?? ds in set_early t es (es + duration t * DAY_MS)
  end.

(** [topoOrder]: [topo] followed by the keys it misses, in key order. *)
Definition complete_order (ks topo : list Z) : list Z :=
  fold_left (λ acc k, if bool_decide (k ∈ acc) then acc else acc ++ [k]) ks topo.

Definition projectFinish_of (ds : Z) (tb : gmap Z Task) (order : list Z) : Z :=
  fold_left (λ mx k,
      match tb !! k with
      | None => mx
      | Some t => Z.max mx (tEF t ?? (baseEF t ?? mx))
      end)
    order ds.

(** *** Backward pass *)

(** The inner loop over the outgoing relationships: the pair
    [(lfLimit, lsLimit)], [None] standing for [Infinity]. *)
Definition late_limit_step (tb : gmap Z Task) (pf : Z)
    (lim : option Z * option Z) (rel : Edge) : option Z * option Z :=
  match tb !! eSucc rel with
  | None => lim
  | Some succ =>
      let lagMs := (eLag rel ?? 0) * DAY_MS in
      match eType rel with
      | FS => (min_limit lim.1 ((tES succ ?? (baseES succ ?? pf)) - lagMs), lim.2)
      | FF => (min_limit lim.1
                 ((tEF succ ?? ((tES succ ?? 0) + duration succ * DAY_MS)) - lagMs), lim.2)
      | SS => (lim.1, min_limit lim.2 ((tES succ ?? (baseES succ ?? pf)) - lagMs))
      | SF => (lim.1, min_limit lim.2
                 ((tEF succ ?? ((tES succ ?? 0) + duration succ * DAY_MS)) - lagMs))
      end
  end.

Definition late_limits (tb : gmap Z Task) (pf : Z) (outgoing : list Edge) : option Z * option Z :=
  fold_left (late_limit_step tb pf) outgoing (None, None).

(** The late dates [(lf, ls)] the loop body assigns to [task].  Every value
    is a finite number in this model, so the two [!Number.isFinite] repairs
    at the end of the body never fire and are not written. *)
Definition late_dates (pf : Z) (task : Task) (lim : option Z * option Z) : Z * Z :=
  let lf := match lim.1 with
            | Some lfLimit => lfLimit
            | None => Z.max (tEF task ?? (baseEF task ?? pf)) pf
            end in
  let ls := lf - duration task * DAY_MS in
  match lim.2 with
  | Some lsLimit =>
      let ls' := Z.min ls lsLimit in
      (ls' + duration task * DAY_MS, ls')
  | None => (lf, ls)
  end.

Definition backward_step (pf : Z) (succMap : gmap Z (list Edge))
    (tb : gmap Z Task) (k : Z) : gmap Z Task :=
  match tb !! k with
  | None => tb
  | Some task =>
      let d := late_dates pf task (late_limits tb pf (succMap !! k ?? [])) in
      <[k := set_late task d.1 d.2]> tb
  end.

Definition backward_pass (pf : Z) (succMap : gmap Z (list Edge))
    (order : list Z) (tb : gmap Z Task) : gmap Z Task :=
  fold_left (backward_step pf succMap) (reverse order) tb.

(** *** Floats *)

Definition free_limit_step (tb : gmap Z Task) (pf : Z) (lim : option Z) (rel : Edge) : option Z :=
  match tb !! eSucc rel with
  | None => lim
  | Some succ =>
      let lagMs := (eLag rel ?? 0) * DAY_MS in
      match eType rel with
      | FS => min_limit lim ((tES succ ?? (baseES succ ?? pf)) - lagMs)
      | FF => min_limit lim ((tEF succ ?? ((tES succ ?? 0) + duration succ * DAY_MS)) - lagMs)
      | _ => lim
      end
  end.

(** The callback of the last [idMap.forEach]: it writes only the two float
    fields of its own task and reads only the early dates and durations, so
    it is applied to every stored task against the table [tb] as it stands
    after the backward pass. *)
Definition float_task (ds pf : Z) (succMap : gmap Z (list Edge)) (tb : gmap Z Task)
    (task : Task) : Task :=
  let tfMs := (tLS task ?? (tES task ?? ds)) - (tES task ?? ds) in
  let tf := round_div tfMs DAY_MS in
  let minConstraint := fold_left (free_limit_step tb pf) (succMap !! id task ?? []) None in
  let ff := match minConstraint with
            | Some mc =>
                let ffMs := mc - (tEF task ?? ((tES task ?? 0) + duration task * DAY_MS)) in
                Z.max 0 (round_div ffMs DAY_MS)
            | None => Z.max 0 tf
            end in
  set_floats task tf ff.

(** *** Result rows *)

Definition emit_row (tb : gmap Z Task) (r : Row) : Row :=
  match ActivityID r ≫= (tb !!.) with
  | None => r
  | Some task =>
      {| ActivityID := ActivityID r;
         ES := orElse (toISODate (tES task)) (ES r);
         EF := orElse (toISODate (tEF task)) (EF r);
         LS := orElse (toISODate (orElse (tLS task) (baseLS task))) (LS r);
         LF := orElse (toISODate (orElse (tLF task) (baseLF task))) (LF r);
         DurDays := Some (duration task);
         TotalFloat_d := orElse (tTotalFloat_d task) (TotalFloat_d r);
         FreeFloat_d := orElse (tFreeFloat_d task) (FreeFloat_d r);
         rest := rest r |}
  end.

(** *** The solver, stage by stage *)

(** The table after base dates are filled in and the impact is applied. *)
Definition prepared (now : Z) (rows : list Row) (impact : option Impact) : gmap Z Task :=
  let m := build_idMap rows in
  apply_impact impact (fill_base (defaultStart now m) <$> tbl m).

Definition edges_of (now : Z) (rows : list Row) (rels : list Rel) (impact : option Impact) : list Edge :=
  make_edges (prepared now rows impact) rels.

Definition init_state (ks : list Z) (tb : gmap Z Task) (edges : list Edge) : FState :=
  let indeg := build_indegree ks edges in
  mkF (init_queue ks tb indeg) ∅ indeg [] tb.

(** The state when the [while] loop exits. *)
Definition forward_pass (now : Z) (rows : list Row) (rels : list Rel) (impact : option Impact) : FState :=
  let m := build_idMap rows in
  let edges := edges_of now rows rels impact in
  forward_loop (length (keys m)) (defaultStart now m) (build_succMap edges)
    (init_state (keys m) (prepared now rows impact) edges).

(** Early dates of every task, after the fallback. *)
Definition early_table (now : Z) (rows : list Row) (rels : list Rel) (impact : option Impact) : gmap Z Task :=
  fallback_early (defaultStart now (build_idMap rows)) <$> tasks (forward_pass now rows rels impact).

Definition topoOrder_of (now : Z) (rows : list Row) (rels : list Rel) (impact : option Impact) : list Z :=
  complete_order (keys (build_idMap rows)) (topo (forward_pass now rows rels impact)).

Definition projectFinish (now : Z) (rows : list Row) (rels : list Rel) (impact : option Impact) : Z :=
  projectFinish_of (defaultStart now (build_idMap rows))
    (early_table now rows rels impact) (topoOrder_of now rows rels impact).

Definition late_table (now : Z) (rows : list Row) (rels : list Rel) (impact : option Impact) : gmap Z Task :=
  backward_pass (projectFinish now rows rels impact)
    (build_succMap (edges_of now rows rels impact))
    (topoOrder_of now rows rels impact) (early_table now rows rels impact).

Definition final_table (now : Z) (rows : list Row) (rels : list Rel) (impact : option Impact) : gmap Z Task :=
  let tb := late_table now rows rels impact in
  float_task (defaultStart now (build_idMap rows)) (projectFinish now rows rels impact)
    (build_succMap (edges_of now rows rels impact)) tb <$> tb.

Definition simulateScenario (now : Z) (rows : list Row) (rels : list Rel) (impact : option Impact) : list Row :=
  match rows with
  | [] => []
  | _ =>
      if bool_decide (keys (build_idMap rows) = [])
      then rows
      else emit_row (final_table now rows rels impact) <$> rows
  end.

(** ** [parseLinkToken]

    Tokens are strings of ASCII code units. *)

#[local] Open Scope string_scope.

Definition is_digit (c : ascii) : bool :=
  bool_decide (48 ≤ nat_of_ascii c ≤ 57)%nat.

(** The ASCII characters [String.prototype.trim] removes. *)
Definition is_space (c : ascii) : bool :=
  bool_decide (9 ≤ nat_of_ascii c ≤ 13 ∨ nat_of_ascii c = 32)%nat.

Fixpoint trimStart (s : string) : string :=
  match s with
  | EmptyString => EmptyString
  | String c s' => if is_space c then trimStart s' else s
  end.

Fixpoint trimEnd (s : string) : string :=
  match s with
  | EmptyString => EmptyString
  | String c s' =>
      match trimEnd s' with
      | EmptyString => if is_space c then EmptyString else String c EmptyString
      | r => String c r
      end
  end.

Definition trim (s : string) : string := trimEnd (trimStart s).

(** [s.slice(0, n)] and [s.slice(n)] *)
Fixpoint slice_to (n : nat) (s : string) : string :=
  match n, s with
  | S n', String c s' => String c (slice_to n' s')
  | _, _ => EmptyString
  end.

Fixpoint slice_from (n : nat) (s : string) : string :=
  match n, s with
  | S n', String _ s' => slice_from n' s'
  | _, _ => s
  end.

(** The length [i] of the leading run of digits. *)
Fixpoint digit_run (s : string) : nat :=
  match s with
  | String c s' => if is_digit c then S (digit_run s') else O
  | EmptyString => O
  end.

Definition digit_val (c : ascii) : Z := Z.of_nat (nat_of_ascii c) - 48.

(** [Number(s)] for a string of digits; on the empty string it is [0]. *)
Definition Number_digits (s : string) : Z :=
  fold_left (λ acc c, 10 * acc + digit_val c) (list_ascii_of_string s) 0%Z.

(** [s.indexOf(c)], [None] for [-1]. *)
Fixpoint indexOf (c : ascii) (s : string) : option nat :=
  match s with
  | EmptyString => None
  | String d s' => if Ascii.eqb c d then Some O else S <$> indexOf c s'
  end.

Fixpoint skip_blanks (s : string) : string :=
  match s with
  | String c s' => if Ascii.eqb c " " then skip_blanks s' else s
  | EmptyString => EmptyString
  end.

(** The lag clause: position and sign of the leftmost of ['+'] and ['-'],
    then the digits after it (blanks skipped). *)
Definition parse_lag (rest : string) : Z :=
  let plus := indexOf "+" rest in
  let minus := indexOf "-" rest in
  let found : option (nat * Z) :=
    match plus, minus with
    | Some p, None => Some (p, 1%Z)
    | Some p, Some m => if bool_decide (p < m)%nat then Some (p, 1%Z) else Some (m, (-1)%Z)
    | None, Some m => Some (m, (-1)%Z)
    | None, None => None
    end in
  match found with
  | Some (pos, sign) =>
      let after := skip_blanks (slice_from (S pos) rest) in
      let numStr := slice_to (digit_run after) after in
      if String.eqb numStr EmptyString then 0%Z else (sign * Number_digits numStr)%Z
  | None => 0%Z
  end.

(** The parser.  [Number(idStr)] of a run of digits is always a finite
    number in this model, so the [!Number.isFinite(id)] guard never fires. *)
Definition parseLinkToken (token : string) (succId : Z) : option Rel :=
  let t := trim token in
  if String.eqb t EmptyString then None
  else
    let i := digit_run t in
    let idStr := slice_to i t in
    let id := Number_digits idStr in
    let rest := trim (slice_from i t) in
    let maybeType := toUpperCase (slice_to 2 rest) in
    let typed := match relType_of_code maybeType with
                 | Some _ => (maybeType, trim (slice_from 2 rest))
                 | None => ("FS", rest)
                 end in
    Some {| PredID := id; SuccID := succId; RelTypeRaw := typed.1;
            Lag_d := Some (parse_lag typed.2) |}.

(** ** The scenario library *)

Record Scenario := mkScenario {
  sc_id : string;
  title : string;
  sc_activityId : Z;
  sc_deltaDays : Z;
  createdAt : Z
}.

(** The part of the page state [handleSaveScenario] reads and writes. *)
Record Library := mkLibrary {
  scenarioLibrary : list Scenario;
  scenarioStatus : string
}.

(** The form fields, already reduced to what the handler computes from them:
    [scenarioFormValid], and the scenario object it would build. *)
Record SaveForm := mkSaveForm {
  scenarioFormValid : bool;
  candidate : Scenario
}.

Definition maxScenariosReached (lib : Library) : bool :=
  bool_decide (10 ≤ length (scenarioLibrary lib))%nat.

Definition status_form_invalid : string :=
  "Choose an activity and impact before saving the scenario.".
Definition status_library_full : string :=
  "Scenario library full (10). Delete one to add a new scenario.".
Definition dquote : string := String (ascii_of_nat 34) EmptyString.
Definition status_saved (s : Scenario) : string :=
  "Scenario " ++ dquote ++ title s ++ dquote ++ " saved.".

Definition handleSaveScenario (form : SaveForm) (lib : Library) : Library :=
  if negb (scenarioFormValid form) then
    mkLibrary (scenarioLibrary lib) status_form_invalid
  else if maxScenariosReached lib then
    mkLibrary (scenarioLibrary lib) status_library_full
  else
    mkLibrary (scenarioLibrary lib ++ [candidate form]) (status_saved (candidate form)).

Definition handleDeleteScenario (sid : string) (lib : Library) : Library :=
  mkLibrary (filter (λ s, sc_id s ≠ sid) (scenarioLibrary lib)) (scenarioStatus lib).

#[local] Close Scope string_scope.

(** ** Notions used to state the properties *)

(** The relationships leaving and entering an activity, in list order. *)
Definition outgoing (E : list Edge) (k : Z) : list Edge := filter (λ e, ePred e = k) E.
Definition incoming (E : list Edge) (k : Z) : list Edge := filter (λ e, eSucc e = k) E.

(** How many relationships of [l] enter [k]. *)
Definition cnt (k : Z) (l : list Edge) : Z := Z.of_nat (length (incoming l k)).

(** The maximum of a list, [None] for the empty list: the value [pending]
    holds after the constraints in the list were recorded one by one. *)
Definition max_opt (l : list Z) : option Z :=
  fold_left (λ acc x, Some (match acc with Some m => Z.max m x | None => x end)) l None.

(** The constraint a relationship puts on its successor's early start, read
    from the dates stored for its predecessor in table [tb]. *)
Definition constraint_of (tb : gmap Z Task) (e : Edge) : Z :=
  match tb !! ePred e, tb !! eSucc e with
  | Some p, Some s => needed_of (tES p ?? 0) (tEF p ?? 0) (duration s) e
  | _, _ => 0
  end.

(** [max(startReq, base)], or [base] when no constraint is pending. *)
Definition early_start_of (base : Z) (req : option Z) : Z :=
  match req with Some r => Z.max r base | None => base end.

(** The early start the forward pass gives to the activity [k], whose
    prepared object is [t0], from the constraints of all its incoming
    relationships. *)
Definition forward_ES (ds : Z) (E : list Edge) (tb : gmap Z Task) (k : Z) (t0 : Task) : Z :=
  early_start_of (baseES t0 ?? ds) (max_opt (constraint_of tb <$> incoming E k)).

Definition forward_task (ds : Z) (E : list Edge) (tb : gmap Z Task) (k : Z) (t0 : Task) : Task :=
  set_early t0 (forward_ES ds E tb k t0) (forward_ES ds E tb k t0 + duration t0 * DAY_MS).


(** The change of duration the impact asks for activity [k], if any. *)
Definition impact_delta (impact : option Impact) (k : Z) : option Z :=
  match impact with
  | Some imp => if bool_decide (activityId imp = Some k) then Some (deltaDays imp ?? 0) else None
  | None => None
  end.

(** The object of activity [k] as the passes find it: base dates filled in,
    duration adjusted when the impact targets [k]. *)
Definition prepare_task (ds : Z) (impact : option Impact) (k : Z) (t : Task) : Task :=
  match impact_delta impact k with
  | Some delta => set_duration (fill_base ds t) (Z.max 0 (duration t + delta))
  | None => fill_base ds t
  end.

(** The early dates of an activity the loop never popped. *)
Definition fallback_task (ds : Z) (t0 : Task) : Task :=
  set_early t0 (baseES t0 ?? ds) ((baseES t0 ?? ds) + duration t0 * DAY_MS).

(** The late dates the backward pass gives to the object [t] of activity
    [k], read from the early dates in table [tb]. *)
Definition late_task (pf : Z) (E : list Edge) (tb : gmap Z Task) (k : Z) (t : Task) : Task :=
  let d := late_dates pf t (late_limits tb pf (outgoing E k)) in
  set_late t d.1 d.2.

(** ** Sample networks *)

(** An activity row with an id, an optional baseline start and a duration. *)
Definition activity (k : Z) (es : option Z) (dur : Z) : Row :=
  mkRow (Some k) es None None None (Some dur) None None [].

Definition link (p s : Z) (ty : string) (lag : Z) : Rel :=
  mkRel p s ty (Some lag).

(** The two-activity network of the specification: A (5 days, starting on
    day 0) followed by B (3 days) through FS+0. *)
Definition chain_rows : list Row := [activity 1 (Some 0) 5; activity 2 None 3].
Definition chain_rels : list Rel := [link 1 2 "FS" 0].

(** Two activities that precede each other. *)
Definition cycle_rows : list Row := [activity 1 (Some 0) 2; activity 2 (Some 4) 3].
Definition cycle_rels : list Rel := [link 1 2 "FS" 0; link 2 1 "FS" 0].

(** Some activity of the network has a baseline early start. *)
Definition has_baseline_start (rows : list Row) : Prop :=
  ∃ k t, tbl (build_idMap rows) !! k = Some t ∧ is_Some (baseES t).

(** One activity without a baseline start and without relationships. *)
Definition undated_rows : list Row := [activity 1 None 1].

(** A chain A (1 day) -> B (1 day) beside a long activity D (10 days): A and
    B can slip 8 days without delaying the project. *)
Definition slack_rows : list Row :=
  [activity 1 (Some 0) 1; activity 2 (Some 0) 1; activity 3 (Some 0) 10].
Definition slack_rels : list Rel := [link 1 2 "FS" 0].


(** What a table stores for activity [k]; [0] where the program would read
    [undefined]. *)
Definition ES_of (tb : gmap Z Task) (k : Z) : Z := (tb !! k ≫= tES) ?? 0.
Definition EF_of (tb : gmap Z Task) (k : Z) : Z := (tb !! k ≫= tEF) ?? 0.

(** Activity 2 ends with activity 1 (FF) and starts activity 3 (SS). *)
Definition ff_rows : list Row :=
  [activity 1 (Some 0) 10; activity 2 (Some 0) 0; activity 3 (Some 0) 20].
Definition ff_rels : list Rel := [link 1 2 "FF" 0; link 2 3 "SS" 0].

(** ** The returned row as a function of the early dates

    [ESf] and [EFf] give the early start and finish of every activity, [pf]
    is the project finish and [d] the duration of the activity [k] itself. *)

Definition limit_step_view (ESf EFf : Z → Z)
    (lim : option Z * option Z) (rel : Edge) : option Z * option Z :=
  let lagMs := (eLag rel ?? 0) * DAY_MS in
  match eType rel with
  | FS => (min_limit lim.1 (ESf (eSucc rel) - lagMs), lim.2)
  | FF => (min_limit lim.1 (EFf (eSucc rel) - lagMs), lim.2)
  | SS => (lim.1, min_limit lim.2 (ESf (eSucc rel) - lagMs))
  | SF => (lim.1, min_limit lim.2 (EFf (eSucc rel) - lagMs))
  end.

Definition late_view (pf ef d : Z) (lim : option Z * option Z) : Z * Z :=
  let lf := match lim.1 with Some lfLimit => lfLimit | None => Z.max ef pf end in
  let ls := lf - d * DAY_MS in
  match lim.2 with
  | Some lsLimit => let ls' := Z.min ls lsLimit in (ls' + d * DAY_MS, ls')
  | None => (lf, ls)
  end.

Definition free_step_view (ESf EFf : Z → Z) (lim : option Z) (rel : Edge) : option Z :=
  let lagMs := (eLag rel ?? 0) * DAY_MS in
  match eType rel with
  | FS => min_limit lim (ESf (eSucc rel) - lagMs)
  | FF => min_limit lim (EFf (eSucc rel) - lagMs)
  | _ => lim
  end.

Definition free_float_view (tf ef : Z) (minConstraint : option Z) : Z :=
  match minConstraint with
  | Some mc => Z.max 0 (round_div (mc - ef) DAY_MS)
  | None => Z.max 0 tf
  end.

Definition solved_row (E : list Edge) (ESf EFf : Z → Z) (pf d k : Z) (r : Row) : Row :=
  let late := late_view pf (EFf k) d
                (fold_left (limit_step_view ESf EFf) (outgoing E k) (None, None)) in
  let tf := round_div (late.2 - ESf k) DAY_MS in
  {| ActivityID := ActivityID r;
     ES := Some (ESf k / DAY_MS);
     EF := Some (EFf k / DAY_MS);
     LS := Some (late.2 / DAY_MS);
     LF := Some (late.1 / DAY_MS);
     DurDays := Some d;
     TotalFloat_d := Some tf;
     FreeFloat_d := Some (free_float_view tf (EFf k)
                            (fold_left (free_step_view ESf EFf) (outgoing E k) None));
     rest := rest r |}.



(** [v] lies a whole number of days from [c]. *)
Definition aligned (c v : Z) : Prop := ∃ q, v = c + q * DAY_MS.



(** ** The invariant of the forward pass *)

(** The loop invariant.  [P] lists the relationships relaxed so far, in the
    order they were relaxed, and [todo] those still to be relaxed in the
    current inner loop. *)
Record Inv (tb0 : gmap Z Task) (E : list Edge) (ks : list Z) (ds : Z)
    (P todo : list Edge) (st : FState) : Prop := {
  inv_tasks : ∀ k, tasks st !! k =
      if decide (k ∈ topo st) then forward_task ds E (tasks st) k <$> tb0 !! k else tb0 !! k;
  inv_order : ∀ i k e, topo st !! i = Some k → e ∈ incoming E k →
      ∃ j, (j < i)%nat ∧ topo st !! j = Some (ePred e);
  inv_nodup : NoDup (topo st ++ queue st);
  inv_known : ∀ k, k ∈ topo st ++ queue st → k ∈ ks;
  inv_indegree : ∀ k, k ∈ ks → indegree st !! k = Some (cnt k E - cnt k P);
  inv_ready : ∀ k, k ∈ ks → k ∈ topo st ++ queue st ↔ cnt k P = cnt k E;
  inv_pending : ∀ k, pending st !! k = max_opt (constraint_of (tasks st) <$> incoming P k);
  inv_processed : ∀ e, e ∈ P → ePred e ∈ topo st;
  inv_sub : P ++ todo ⊆+ E
}.

(** The invariant between two iterations of the [while] loop: the relaxed
    relationships are those leaving the popped activities. *)
Definition Boundary (tb0 : gmap Z Task) (E : list Edge) (ks : list Z) (ds : Z)
    (st : FState) : Prop :=
  Inv tb0 E ks ds (topo st ≫= outgoing E) [] st.

(** The state in which the [while] loop exits. *)
Definition loop_exit (tb0 : gmap Z Task) (E : list Edge) (ks : list Z) (ds : Z) : FState :=
  forward_loop (length ks) ds (build_succMap E) (init_state ks tb0 E).

(** A full scenario library. *)
Definition demo_scenario (n : Z) : Scenario := mkScenario "s" "t" n 1 0.
Definition demo_full : Library :=
  mkLibrary (demo_scenario <$> [1; 2; 3; 4; 5; 6; 7; 8; 9; 10]) EmptyString.

(** ** Notions used to state further properties of the solver *)

(** The relationships [E] have no cycle: the activities can be ranked so
    that every relationship goes up in rank. *)
Definition acyclic (E : list Edge) : Prop :=
  ∃ rk : Z → nat, ∀ e, e ∈ E → (rk (ePred e) < rk (eSucc e))%nat.

(** The position of the first occurrence of [k] in [l]. *)
Fixpoint index_of (k : Z) (l : list Z) : nat :=
  match l with
  | [] => O
  | x :: l' => if decide (x = k) then O else S (index_of k l')
  end.

(** The ids of the rows that define an activity. *)
Definition activity_ids (rows : list Row) : list Z := omap ActivityID rows.

(** The canonical spelling of a relationship type. *)
Definition code_of (ty : RelType) : string :=
  match ty with FS => "FS" | SS => "SS" | FF => "FF" | SF => "SF" end%string.


(** ** Notions used to state the properties of the link parser *)

(** Every character of [s] is a decimal digit. *)
Fixpoint all_digits (s : string) : bool :=
  match s with
  | EmptyString => true
  | String c s' => is_digit c && all_digits s'
  end.

(** No character of [s] is white space. *)
Fixpoint no_space (s : string) : bool :=
  match s with
  | EmptyString => true
  | String c s' => negb (is_space c) && no_space s'
  end.

(** ** [buildLinksFromPredecessors] *)

#[local] Open Scope string_scope.

(** The separators of [/[,;]+/]. *)
Definition is_sep (c : ascii) : bool := Ascii.eqb c "," || Ascii.eqb c ";".

(** [s.split(/[,;]+/)]: the pieces between maximal runs of separators, the
    empty piece before a leading and after a trailing run included.
    [in_sep] tells that the character before [s] was a separator. *)
Fixpoint split_seps (in_sep : bool) (s : string) : list string :=
  match s with
  | EmptyString => [EmptyString]
  | String c s' =>
      if is_sep c then
        if in_sep then split_seps true s' else EmptyString :: split_seps true s'
      else
        match split_seps false s' with
        | p :: ps => String c p :: ps
        | [] => [String c EmptyString]
        end
  end.

(** A sheet row as [buildLinksFromPredecessors] reads it: [succ_cell] is
    [Number(succ)] for the first of the id columns that is present, [None]
    when that is not a finite number; [pred_cell] is [String(predStr)] for
    the predecessor cell the header lookup ends with, [None] when there is
    none. *)
Record LinkRow := mkLinkRow {
  succ_cell : option Z;
  pred_cell : option string
}.

(** The body of the loop over the rows. *)
Definition links_of_row (r : LinkRow) : list Rel :=
  match succ_cell r, pred_cell r with
  | Some succ, Some predStr =>
      if String.eqb predStr EmptyString then []
      else omap (λ p, parseLinkToken p succ) (split_seps false predStr)
  | _, _ => []
  end.

Definition buildLinksFromPredecessors (rows : list LinkRow) : list Rel :=
  rows ≫= links_of_row.

(** A predecessor cell: a first token, then separators each followed by a
    token. *)
Fixpoint cell_of (t : string) (more : list (ascii * string)) : string :=
  match more with
  | [] => t
  | (sep, t') :: more' => t +:+ String sep (cell_of t' more')
  end.

(** No character of [s] is a separator. *)
Fixpoint no_sep (s : string) : bool :=
  match s with
  | EmptyString => true
  | String c s' => negb (is_sep c) && no_sep s'
  end.

#[local] Close Scope string_scope.

(** ** The scenario library as a state machine

    The two handlers that write [scenarioLibrary], as the events of the
    page, and the state after a sequence of them. *)

Inductive LibraryEvent :=
  | SaveClicked (form : SaveForm)
  | DeleteClicked (sid : string).

Definition library_step (lib : Library) (ev : LibraryEvent) : Library :=
  match ev with
  | SaveClicked form => handleSaveScenario form lib
  | DeleteClicked sid => handleDeleteScenario sid lib
  end.

(** [useState([])] and [useState("")] *)
Definition library_init : Library := mkLibrary [] EmptyString.

Definition library_run (evs : list LibraryEvent) : Library :=
  fold_left library_step evs library_init.

(** The scenarios the save requests with a valid form asked to store, in
    the order of the requests. *)
Definition save_requests (evs : list LibraryEvent) : list Scenario :=
  omap (λ ev, match ev with
              | SaveClicked form =>
                  if scenarioFormValid form then Some (candidate form) else None
              | DeleteClicked _ => None
              end) evs.

(** ** The hover chain of the Gantt chart

    [idSet], [graph] and [relatedIds] of the [Gantt] component.  A JS [Set]
    is modelled by the list of its elements in insertion order where the
    order is observable to the code (the [seen] set grows with the queue),
    by a [gset] otherwise. *)

(** [data.map(d => Number(d.ActivityID))] as a set; a row without a finite
    id contributes [NaN], which no end of a relationship equals. *)
Definition idSet (data : list Row) : gset Z := list_to_set (omap ActivityID data).

(** [push(m, k, v)] on the maps from an id to a list of ids. *)
Definition push_id (m : gmap Z (list Z)) (k v : Z) : gmap Z (list Z) :=
  <[k := (m !! k ?? []) ++ [v]]> m.

Record Graph := mkGraph {
  g_succ : gmap Z (list Z);
  g_pred : gmap Z (list Z)
}.

Definition graph (data : list Row) (rels : list Rel) : Graph :=
  fold_left (λ g e,
      if bool_decide (PredID e ∈ idSet data ∧ SuccID e ∈ idSet data)
      then mkGraph (push_id (g_succ g) (PredID e) (SuccID e))
                   (push_id (g_pred g) (SuccID e) (PredID e))
      else g)
    rels (mkGraph ∅ ∅).

(** The state of the traversal: the set [seen] and the queue [q]. *)
Record Bfs := mkBfs {
  bfs_seen : list Z;
  bfs_queue : list Z
}.

(** [if (!seen.has(m)) { seen.add(m); q.push(m); }] *)
Definition visit (st : Bfs) (m : Z) : Bfs :=
  if bool_decide (m ∈ bfs_seen st) then st
  else mkBfs (bfs_seen st ++ [m]) (bfs_queue st ++ [m]).

(** The [while (q.length)] loop. *)
Fixpoint bfs_loop (fuel : nat) (g : Graph) (st : Bfs) : Bfs :=
  match fuel with
  | O => st
  | S fuel' =>
      match bfs_queue st with
      | [] => st
      | n :: q' =>
          let st1 := fold_left visit (g_succ g !! n ?? []) (mkBfs (bfs_seen st) q') in
          let st2 := fold_left visit (g_pred g !! n ?? []) st1 in
          bfs_loop fuel' g st2
      end
  end.

(** [relatedIds]: empty when [hoverId] is falsy ([null], [undefined] or
    [0]).  The loop pops each id at most once, and every id it pops other
    than [hoverId] is an end of a relationship, so one iteration per end
    and one more is enough fuel. *)
Definition relatedIds (data : list Row) (rels : list Rel) (hoverId : option Z) : list Z :=
  match hoverId with
  | None => []
  | Some h =>
      if bool_decide (h = 0) then []
      else bfs_seen (bfs_loop (S (2 * length rels)) (graph data rels) (mkBfs [h] [h]))
  end.

(** Two ids are linked when a relationship between displayed activities
    joins them, in either direction. *)
Definition linked (data : list Row) (rels : list Rel) (a b : Z) : Prop :=
  ∃ e, e ∈ rels ∧ PredID e ∈ idSet data ∧ SuccID e ∈ idSet data ∧
       ((PredID e = a ∧ SuccID e = b) ∨ (SuccID e = a ∧ PredID e = b)).

(** * Properties *)

(** ** The token parser *)

Section Parser.
#[local] Open Scope string_scope.

(** A token that is not blank always yields an edge: the parser has no other
    way to return [null]. *)
Lemma parseLinkToken_nonblank token succId :
  trim token ≠ EmptyString → is_Some (parseLinkToken token succId).
Proof.
  intros Hne. unfold parseLinkToken.
  destruct (String.eqb_spec (trim token) EmptyString) as [Heq|_]; [by destruct Hne|].
  by eexists.
Qed.

(** Without a leading digit the predecessor id is [Number] of the empty
    string, which is [0]. *)
Lemma parseLinkToken_no_digit token succId :
  trim token ≠ EmptyString → digit_run (trim token) = O →
  ∃ rel, parseLinkToken token succId = Some rel ∧ PredID rel = 0%Z.
Proof.
  intros Hne Hrun. unfold parseLinkToken.
  destruct (String.eqb_spec (trim token) EmptyString) as [Heq|_]; [by destruct Hne|].
  rewrite Hrun. eexists; split; [reflexivity|]. reflexivity.
Qed.

(** C3 (code defect): the four tokens of the specification, evaluated.  The
    two well-formed tokens and the empty token behave as stated;
    ["abcFS"], which has no leading digit, is not rejected: it yields an
    edge from predecessor [0]. *)
Theorem parseLinkToken_spec_tokens (succId : Z) :
  parseLinkToken "205FS+3" succId = Some (mkRel 205 succId "FS" (Some 3%Z)) ∧
  parseLinkToken "130-2" succId = Some (mkRel 130 succId "FS" (Some (-2)%Z)) ∧
  parseLinkToken EmptyString succId = None ∧
  parseLinkToken "abcFS" succId = Some (mkRel 0 succId "FS" (Some 0%Z)).
Proof. repeat split; reflexivity. Qed.

End Parser.

(** ** The scenario library *)

Section ScenarioLibrary.

Lemma handleDeleteScenario_length sid lib :
  (length (scenarioLibrary (handleDeleteScenario sid lib)) ≤ length (scenarioLibrary lib))%nat.
Proof. apply length_filter. Qed.

(** Saving never takes the library past ten entries, whatever the form. *)
Lemma handleSaveScenario_bounded form lib :
  (length (scenarioLibrary lib) ≤ 10)%nat →
  (length (scenarioLibrary (handleSaveScenario form lib)) ≤ 10)%nat.
Proof.
  intros Hlen. unfold handleSaveScenario, maxScenariosReached.
  destruct (scenarioFormValid form); simpl; [|done].
  case_bool_decide; simpl; [done|].
  rewrite length_app. simpl. lia.
Qed.

(** C9: a save request with a valid form.  With ten scenarios stored it is
    refused with the library-full status and the list is left as it was;
    with fewer the new scenario is appended at the end; either way the
    library holds at most ten entries afterwards. *)
Theorem handleSaveScenario_capacity (form : SaveForm) (lib : Library)
    (Hvalid : scenarioFormValid form = true)
    (Hlen : (length (scenarioLibrary lib) ≤ 10)%nat) :
  (length (scenarioLibrary (handleSaveScenario form lib)) ≤ 10)%nat ∧
  (length (scenarioLibrary lib) = 10%nat →
     handleSaveScenario form lib = mkLibrary (scenarioLibrary lib) status_library_full) ∧
  ((length (scenarioLibrary lib) < 10)%nat →
     scenarioLibrary (handleSaveScenario form lib) = scenarioLibrary lib ++ [candidate form]).
Proof.
  split; [by apply handleSaveScenario_bounded|].
  unfold handleSaveScenario, maxScenariosReached. rewrite Hvalid. simpl.
  split; intros Hn; case_bool_decide; simpl; try done; lia.
Qed.

Lemma handleSaveScenario_capacity_witness :
  handleSaveScenario (mkSaveForm true (demo_scenario 11)) demo_full
  = mkLibrary (scenarioLibrary demo_full) status_library_full.
Proof.
  apply (handleSaveScenario_capacity (mkSaveForm true (demo_scenario 11)) demo_full);
    [reflexivity | simpl; lia | reflexivity].
Defined.

End ScenarioLibrary.

(** ** Construction of the network *)

Section Construction.

Lemma build_idMap_snoc rows r :
  build_idMap (rows ++ [r]) =
  match ActivityID r with
  | Some k => idMap_set k (new_task (length rows) r k) (build_idMap rows)
  | None => build_idMap rows
  end.
Proof.
  unfold build_idMap. rewrite imap_app, fold_left_app. simpl.
  by rewrite Nat.add_0_r.
Qed.

(** The keys are exactly the ids stored, without repetition. *)
Lemma build_idMap_keys rows :
  NoDup (keys (build_idMap rows)) ∧
  ∀ k, k ∈ keys (build_idMap rows) ↔ is_Some (tbl (build_idMap rows) !! k).
Proof.
  induction rows as [|r rows [IHnd IHdom]] using rev_ind.
  - split; [constructor|]. intros k. cbn. rewrite lookup_empty.
    split; [by intros ?%elem_of_nil | by intros [? ?]].
  - rewrite build_idMap_snoc. destruct (ActivityID r) as [k|]; [|done].
    unfold idMap_set; simpl. split.
    + case_bool_decide; [done|].
      apply NoDup_app. split_and!; [done| |apply NoDup_singleton].
      intros x Hx ->%list_elem_of_singleton. done.
    + intros k'. rewrite lookup_insert. case_decide as Hk; subst.
      * split; [by eauto|]. intros _. case_bool_decide; [done|].
        apply elem_of_app. right. by apply list_elem_of_singleton.
      * rewrite <- IHdom. case_bool_decide; [done|].
        rewrite elem_of_app, list_elem_of_singleton.
        split; [intros [?|?]; [done|congruence]|by left].
Qed.

Lemma build_idMap_NoDup rows : NoDup (keys (build_idMap rows)).
Proof. apply build_idMap_keys. Qed.

Lemma build_idMap_dom rows k :
  k ∈ keys (build_idMap rows) ↔ is_Some (tbl (build_idMap rows) !! k).
Proof. apply build_idMap_keys. Qed.

(** Every stored object was built from a row carrying that id. *)
Lemma build_idMap_lookup rows k t :
  tbl (build_idMap rows) !! k = Some t →
  ∃ i r, rows !! i = Some r ∧ ActivityID r = Some k ∧ t = new_task i r k.
Proof.
  induction rows as [|r rows IH] using rev_ind.
  - cbn. by rewrite lookup_empty.
  - rewrite build_idMap_snoc. destruct (ActivityID r) as [k'|] eqn:Hr.
    + unfold idMap_set; simpl. rewrite lookup_insert. case_decide as Hk.
      * intros [= <-]. subst k'. exists (length rows), r. split_and!; [|done..].
        by rewrite lookup_app_r, Nat.sub_diag.
      * intros (i & r0 & Hi & ? & ?)%IH. exists i, r0. split_and!; [|done..].
        by apply lookup_app_l_Some.
    + intros (i & r0 & Hi & ? & ?)%IH. exists i, r0. split_and!; [|done..].
      by apply lookup_app_l_Some.
Qed.

(** It is the last row carrying that id that defines the object. *)
Lemma build_idMap_last rows k i r :
  tbl (build_idMap rows) !! k = Some (new_task i r k) →
  ∀ j r', rows !! j = Some r' → ActivityID r' = Some k → (j ≤ i)%nat.
Proof.
  induction rows as [|r0 rows IH] using rev_ind.
  - cbn. by rewrite lookup_empty.
  - rewrite build_idMap_snoc. intros Ht j r' Hj Hk'.
    pose proof (lookup_lt_Some _ _ _ Hj) as Hlt. rewrite length_app in Hlt. simpl in Hlt.
    destruct (ActivityID r0) as [k'|] eqn:Hr.
    + unfold idMap_set in Ht; simpl in Ht. rewrite lookup_insert in Ht.
      case_decide as Hk.
      * injection Ht as Hi _. lia.
      * destruct (decide (j < length rows)%nat) as [Hjl|Hjl].
        -- rewrite lookup_app_l in Hj by done. by eapply IH.
        -- rewrite lookup_app_r in Hj by lia.
           apply list_lookup_singleton_Some in Hj as [_ <-]. congruence.
    + destruct (decide (j < length rows)%nat) as [Hjl|Hjl].
      * rewrite lookup_app_l in Hj by done. by eapply IH.
      * rewrite lookup_app_r in Hj by lia.
        apply list_lookup_singleton_Some in Hj as [_ <-]. congruence.
Qed.

(** A row with a finite id always has an object under that id. *)
Lemma build_idMap_covers rows r k :
  r ∈ rows → ActivityID r = Some k → is_Some (tbl (build_idMap rows) !! k).
Proof.
  induction rows as [|r' rows IH] using rev_ind; [by intros ?%elem_of_nil|].
  intros [Hin| ->%list_elem_of_singleton]%elem_of_app Hk; rewrite build_idMap_snoc.
  - destruct (ActivityID r') as [k'|]; [|by apply IH].
    unfold idMap_set; simpl. rewrite lookup_insert. case_decide; [by eauto|by apply IH].
  - rewrite Hk. unfold idMap_set; simpl. rewrite lookup_insert_eq. by eauto.
Qed.

End Construction.

(** ** Lists: sorting, maxima, counting *)

Section ListFacts.

Lemma insert_by_perm key x l : insert_by key x l ≡ₚ x :: l.
Proof.
  induction l as [|y l IH]; simpl; [done|].
  case_bool_decide; [done|]. rewrite IH. apply Permutation_swap.
Qed.

Lemma sort_by_perm key l : sort_by key l ≡ₚ l.
Proof.
  induction l as [|x l IH]; simpl; [done|].
  by rewrite insert_by_perm, IH.
Qed.

Lemma insert_by_sorted key x l :
  Sorted (λ a b, key a ≤ key b) l → Sorted (λ a b, key a ≤ key b) (insert_by key x l).
Proof.
  induction 1 as [|y l Hs IH Hhd]; simpl.
  - repeat constructor.
  - case_bool_decide as Hxy.
    + constructor; [by constructor|]. by constructor.
    + constructor; [done|].
      destruct l as [|z l]; simpl in *.
      * constructor. lia.
      * case_bool_decide; constructor; [lia|]. by inversion Hhd.
Qed.

Lemma sort_by_sorted key l : Sorted (λ a b, key a ≤ key b) (sort_by key l).
Proof.
  induction l as [|x l IH]; simpl; [constructor|]. by apply insert_by_sorted.
Qed.

Lemma max_opt_snoc l x :
  max_opt (l ++ [x]) = Some (match max_opt l with Some m => Z.max m x | None => x end).
Proof. unfold max_opt. by rewrite fold_left_app. Qed.

Lemma max_opt_nil_iff l : max_opt l = None ↔ l = [].
Proof.
  split; [|by intros ->].
  destruct l as [|x l] using rev_ind; [done|]. by rewrite max_opt_snoc.
Qed.

(** [max_opt] returns an element of the list that bounds all the others. *)
Lemma max_opt_Some l m :
  max_opt l = Some m ↔ m ∈ l ∧ ∀ x, x ∈ l → x ≤ m.
Proof.
  revert m. induction l as [|y l IH] using rev_ind; intros m.
  - split; [done|]. by intros [?%elem_of_nil _].
  - rewrite max_opt_snoc. destruct (max_opt l) as [m0|] eqn:Hm0.
    + destruct (proj1 (IH m0) eq_refl) as [Hin Hub]. split.
      * intros [= <-]. split.
        -- apply elem_of_app. destruct (Z.max_spec m0 y) as [[_ ->]|[_ ->]].
           ++ right. by apply list_elem_of_singleton.
           ++ by left.
        -- intros x [Hx| ->%list_elem_of_singleton]%elem_of_app; [|lia].
           specialize (Hub x Hx). lia.
      * intros [Hm Hall]. f_equal.
        assert (m0 ≤ m) by (apply Hall, elem_of_app; by left).
        assert (y ≤ m) by (apply Hall, elem_of_app; right; by apply list_elem_of_singleton).
        apply elem_of_app in Hm as [Hm| ->%list_elem_of_singleton]; [|lia].
        specialize (Hub m Hm). lia.
    + apply max_opt_nil_iff in Hm0 as ->. simpl. split.
      * intros [= <-]. split; [by apply list_elem_of_singleton|].
        by intros x ->%list_elem_of_singleton.
      * by intros [->%list_elem_of_singleton _].
Qed.

Lemma max_opt_perm l1 l2 : l1 ≡ₚ l2 → max_opt l1 = max_opt l2.
Proof.
  intros Hp. destruct (max_opt l1) as [m|] eqn:H1.
  - symmetry. apply max_opt_Some. apply max_opt_Some in H1 as [Hin Hub].
    split; [by rewrite <- Hp|]. intros x Hx. apply Hub. by rewrite Hp.
  - apply max_opt_nil_iff in H1 as ->. apply Permutation_nil_l in Hp. by subst.
Qed.



Lemma filter_submseteq_mono {A} (P : A → Prop) `{!∀ x, Decision (P x)} (l1 l2 : list A) :
  l1 ⊆+ l2 → filter P l1 ⊆+ filter P l2.
Proof.
  intros [k Hk]%submseteq_Permutation. rewrite Hk, filter_app.
  by apply submseteq_inserts_r.
Qed.

(** A sub-multiset with as many [P]-elements as the whole has all of them. *)
Lemma filter_submseteq_full {A} (P : A → Prop) `{!∀ x, Decision (P x)} (l1 l2 : list A) :
  l1 ⊆+ l2 → (length (filter P l2) ≤ length (filter P l1))%nat →
  filter P l1 ≡ₚ filter P l2.
Proof.
  intros Hsub Hlen. apply submseteq_length_Permutation; [|lia].
  by apply filter_submseteq_mono.
Qed.

Lemma filter_or_perm {A} (P Q : A → Prop)
    `{!∀ x, Decision (P x)} `{!∀ x, Decision (Q x)} (l : list A) :
  (∀ x, P x → Q x → False) →
  filter (λ x, P x ∨ Q x) l ≡ₚ filter P l ++ filter Q l.
Proof.
  intros Hdisj. induction l as [|x l IH]; [done|].
  rewrite !filter_cons.
  destruct (decide (P x)) as [HP|HP], (decide (Q x)) as [HQ|HQ].
  - by destruct (Hdisj x).
  - rewrite decide_True by auto. simpl. by rewrite IH.
  - rewrite decide_True by auto. rewrite IH. apply Permutation_middle.
  - rewrite decide_False by tauto. done.
Qed.

End ListFacts.

(** ** Successor lists and in-degrees *)

Section Graph.

Lemma outgoing_snoc E e k :
  outgoing (E ++ [e]) k = outgoing E k ++ (if decide (ePred e = k) then [e] else []).
Proof.
  unfold outgoing. by rewrite filter_app.
Qed.

(** [succMap.get(k) || []] lists the relationships leaving [k] in input order. *)
Lemma build_succMap_lookup E k : build_succMap E !! k ?? [] = outgoing E k.
Proof.
  induction E as [|e E IH] using rev_ind; [done|].
  unfold build_succMap in *. rewrite fold_left_app, outgoing_snoc. simpl.
  unfold push at 1. rewrite lookup_insert. case_decide as Hk.
  - subst k. simpl. by rewrite IH.
  - by rewrite app_nil_r.
Qed.

Lemma init_indegree_lookup ks k :
  init_indegree ks !! k = if decide (k ∈ ks) then Some 0 else None.
Proof.
  unfold init_indegree. induction ks as [|k' ks IH].
  - rewrite fmap_nil, list_to_map_nil, lookup_empty.
    destruct (decide (k ∈ [])) as [Hin|]; [by apply elem_of_nil in Hin|done].
  - rewrite fmap_cons, list_to_map_cons, lookup_insert.
    destruct (decide (k' = k)) as [->|Hne].
    + destruct (decide (k ∈ k :: ks)) as [|Hn]; [done|].
      destruct Hn. apply list_elem_of_here.
    + rewrite IH. destruct (decide (k ∈ ks)) as [Hin|Hin].
      * destruct (decide (k ∈ k' :: ks)) as [|Hn]; [done|].
        destruct Hn. by apply list_elem_of_further.
      * destruct (decide (k ∈ k' :: ks)) as [[?|?]%elem_of_cons|]; done.
Qed.

Lemma cnt_nil k : cnt k [] = 0.
Proof. done. Qed.

Lemma cnt_app k l1 l2 : cnt k (l1 ++ l2) = cnt k l1 + cnt k l2.
Proof. unfold cnt, incoming. rewrite filter_app, length_app. lia. Qed.

Lemma cnt_singleton k e : cnt k [e] = if decide (eSucc e = k) then 1 else 0.
Proof. unfold cnt, incoming. rewrite filter_cons, filter_nil. by case_decide. Qed.

Lemma cnt_nonneg k l : 0 ≤ cnt k l.
Proof. unfold cnt. lia. Qed.

Lemma cnt_submseteq k l1 l2 : l1 ⊆+ l2 → cnt k l1 ≤ cnt k l2.
Proof.
  intros Hsub. unfold cnt, incoming.
  apply (filter_submseteq_mono (λ e, eSucc e = k)), submseteq_length in Hsub. lia.
Qed.

(** The in-degree of a known activity counts the relationships entering it. *)
Lemma build_indegree_lookup ks E k :
  k ∈ ks → build_indegree ks E !! k = Some (cnt k E).
Proof.
  intros Hk. induction E as [|e E IH] using rev_ind.
  - cbn. rewrite init_indegree_lookup. by rewrite decide_True.
  - unfold build_indegree in *. rewrite fold_left_app, cnt_app, cnt_singleton. simpl.
    rewrite lookup_insert. case_decide as He.
    + rewrite He, IH. simpl. done.
    + rewrite IH. f_equal. lia.
Qed.

(** The relationships processed once the activities of [l] were popped. *)
Lemma bind_outgoing_perm E l :
  NoDup l → l ≫= outgoing E ≡ₚ filter (λ e, ePred e ∈ l) E.
Proof.
  induction 1 as [|k l Hk Hnd IH]; simpl.
  - induction E as [|e E IHE]; [done|].
    rewrite filter_cons. rewrite decide_False by apply not_elem_of_nil. done.
  - rewrite IH. unfold outgoing.
    rewrite <- (filter_or_perm (λ e, ePred e = k) (λ e, ePred e ∈ l)).
    + apply Permutation_refl'. apply list_filter_iff. intros e.
      rewrite elem_of_cons. done.
    + intros e -> Hin. done.
Qed.

Lemma bind_outgoing_submseteq E l : NoDup l → l ≫= outgoing E ⊆+ E.
Proof.
  intros Hnd. rewrite (bind_outgoing_perm E l Hnd).
  apply sublist_submseteq, sublist_filter.
Qed.

Lemma elem_of_bind_outgoing E l e : e ∈ l ≫= outgoing E → ePred e ∈ l.
Proof.
  intros (k & He & Hk)%list_elem_of_bind.
  apply list_elem_of_filter in He as [-> _]. done.
Qed.

End Graph.

#[global] Instance max_opt_proper : Proper ((≡ₚ) ==> (=)) max_opt.
Proof. intros l1 l2 Hp. by apply max_opt_perm. Qed.

(** ** The forward pass as Kahn's algorithm *)

Section Kahn.

(** The prepared table [tb0], the relationships [E] between its keys, the
    keys [ks] in insertion order and the default epoch [ds]. *)
Context (tb0 : gmap Z Task) (E : list Edge) (ks : list Z) (ds : Z).
Context (Hnd : NoDup ks).
Context (Hdom : ∀ k, k ∈ ks ↔ is_Some (tb0 !! k)).
Context (Hid : ∀ k t, tb0 !! k = Some t → id t = k).
Context (HE : ∀ e, e ∈ E → ePred e ∈ ks ∧ eSucc e ∈ ks).

(** Writing early dates into one object does not change the constraint of a
    relationship that starts elsewhere. *)
Lemma constraint_of_insert tb cur c es ef e :
  tb !! cur = Some c → ePred e ≠ cur →
  constraint_of (<[cur := set_early c es ef]> tb) e = constraint_of tb e.
Proof.
  intros Hc Hne. unfold constraint_of. rewrite lookup_insert_ne by done.
  destruct (tb !! ePred e) as [p|]; [|done].
  destruct (decide (eSucc e = cur)) as [->|Hs].
  - by rewrite lookup_insert_eq, Hc.
  - by rewrite lookup_insert_ne.
Qed.

Lemma Inv_lookup P todo st k :
  Inv tb0 E ks ds P todo st → k ∈ ks →
  ∃ t t0, tasks st !! k = Some t ∧ tb0 !! k = Some t0 ∧ id t = k ∧
          duration t = duration t0 ∧ baseES t = baseES t0.
Proof.
  intros HI Hk. apply Hdom in Hk as [t0 Ht0].
  rewrite (inv_tasks _ _ _ _ _ _ _ HI k), Ht0. case_decide; simpl.
  - eexists _, t0. split_and!; try done. simpl. by eapply Hid.
  - exists t0, t0. split_and!; try done. by eapply Hid.
Qed.

Lemma incoming_snoc P e k :
  incoming (P ++ [e]) k = incoming P k ++ (if decide (eSucc e = k) then [e] else []).
Proof. unfold incoming. by rewrite filter_app. Qed.

(** One relaxation step keeps the invariant. *)
Lemma relax_edge_inv P todo st e es ef :
  Inv tb0 E ks ds P (e :: todo) st →
  ePred e ∈ topo st →
  (∀ succ, tasks st !! eSucc e = Some succ →
     needed_of es ef (duration succ) e = constraint_of (tasks st) e) →
  Inv tb0 E ks ds (P ++ [e]) todo (relax_edge es ef st e) ∧
  topo (relax_edge es ef st e) = topo st ∧
  tasks (relax_edge es ef st e) = tasks st.
Proof.
  intros HI Hpred Hneed.
  assert (e ∈ E) as HeE.
  { eapply elem_of_submseteq; [|apply (inv_sub _ _ _ _ _ _ _ HI)].
    apply elem_of_app. right. apply list_elem_of_here. }
  destruct (HE e HeE) as [_ Hs].
  destruct (Inv_lookup _ _ _ _ HI Hs) as (succ & t0 & Hsucc & _ & Hids & _ & _).
  assert (cnt (eSucc e) P + 1 ≤ cnt (eSucc e) E) as Hroom.
  { etrans; [|apply (cnt_submseteq (eSucc e) (P ++ [e]) E)].
    - rewrite cnt_app, cnt_singleton. by rewrite decide_True.
    - etrans; [|apply (inv_sub _ _ _ _ _ _ _ HI)].
      apply submseteq_skips_l, submseteq_skip, submseteq_nil_l. }
  pose proof (inv_indegree _ _ _ _ _ _ _ HI _ Hs) as Hdeg.
  pose proof (inv_ready _ _ _ _ _ _ _ HI _ Hs) as Hready.
  unfold relax_edge. rewrite Hsucc, Hids, Hdeg. simpl.
  split; [|done]. constructor; simpl.
  - apply (inv_tasks _ _ _ _ _ _ _ HI).
  - apply (inv_order _ _ _ _ _ _ _ HI).
  - case_bool_decide as Hz; [|apply (inv_nodup _ _ _ _ _ _ _ HI)].
    rewrite sort_by_perm, app_assoc. apply NoDup_app. split_and!.
    + apply (inv_nodup _ _ _ _ _ _ _ HI).
    + intros x Hx ->%list_elem_of_singleton. apply Hready in Hx. lia.
    + apply NoDup_singleton.
  - intros k Hk. case_bool_decide as Hz; [|by apply (inv_known _ _ _ _ _ _ _ HI)].
    rewrite sort_by_perm, app_assoc in Hk.
    apply elem_of_app in Hk as [Hk| ->%list_elem_of_singleton]; [|done].
    by apply (inv_known _ _ _ _ _ _ _ HI).
  - intros k Hk. rewrite cnt_app, cnt_singleton, lookup_insert.
    destruct (decide (eSucc e = k)) as [->|Hne].
    + f_equal. lia.
    + rewrite (inv_indegree _ _ _ _ _ _ _ HI _ Hk). f_equal. lia.
  - intros k Hk. rewrite cnt_app, cnt_singleton.
    destruct (decide (eSucc e = k)) as [<-|Hne].
    + case_bool_decide as Hz.
      * rewrite sort_by_perm. split; [lia|]. intros _.
        rewrite !elem_of_app. right. right. by apply list_elem_of_singleton.
      * rewrite Hready. lia.
    + rewrite Z.add_0_r, <- (inv_ready _ _ _ _ _ _ _ HI _ Hk).
      case_bool_decide as Hz; [|done].
      rewrite sort_by_perm, !elem_of_app, list_elem_of_singleton.
      split; [intros [?|[?|?]]; [by left|by right|congruence]|].
      intros [?|?]; [by left|right; by left].
  - intros k. rewrite incoming_snoc, lookup_insert.
    destruct (decide (eSucc e = k)) as [<-|Hne].
    + cbv iota. rewrite fmap_app. cbn [fmap list_fmap].
      rewrite max_opt_snoc, <- (inv_pending _ _ _ _ _ _ _ HI).
      by rewrite (Hneed _ Hsucc).
    + cbv iota. rewrite app_nil_r. apply (inv_pending _ _ _ _ _ _ _ HI).
  - intros e' [He'| ->%list_elem_of_singleton]%elem_of_app; [|done].
    by apply (inv_processed _ _ _ _ _ _ _ HI).
  - rewrite <- app_assoc. apply (inv_sub _ _ _ _ _ _ _ HI).
Qed.

(** The whole inner loop. *)
Lemma relax_all_inv todo P st es ef :
  Inv tb0 E ks ds P todo st →
  (∀ e, e ∈ todo → ePred e ∈ topo st) →
  (∀ e succ, e ∈ todo → tasks st !! eSucc e = Some succ →
     needed_of es ef (duration succ) e = constraint_of (tasks st) e) →
  Inv tb0 E ks ds (P ++ todo) [] (fold_left (relax_edge es ef) todo st) ∧
  topo (fold_left (relax_edge es ef) todo st) = topo st ∧
  tasks (fold_left (relax_edge es ef) todo st) = tasks st.
Proof.
  revert P st. induction todo as [|e todo IH]; intros P st HI Hpred Hneed.
  - simpl. by rewrite app_nil_r.
  - destruct (relax_edge_inv P todo st e es ef HI) as (HI' & Htopo & Htasks).
    { apply Hpred, list_elem_of_here. }
    { intros succ. apply Hneed, list_elem_of_here. }
    simpl. destruct (IH (P ++ [e]) (relax_edge es ef st e) HI') as (HI'' & Htopo' & Htasks').
    + intros e' He'. rewrite Htopo. by apply Hpred, list_elem_of_further.
    + intros e' succ He'. rewrite Htasks. by apply Hneed, list_elem_of_further.
    + rewrite <- app_assoc in HI''. simpl in HI''.
      split; [done|]. split; congruence.
Qed.

(** One iteration of the [while] loop. *)
Lemma pop_step_inv cur q pend indeg tp tk :
  Boundary tb0 E ks ds (mkF (cur :: q) pend indeg tp tk) →
  Boundary tb0 E ks ds (pop_step ds (build_succMap E) cur (mkF q pend indeg tp tk)) ∧
  topo (pop_step ds (build_succMap E) cur (mkF q pend indeg tp tk)) = tp ++ [cur].
Proof.
  unfold Boundary. simpl. set (P := tp ≫= outgoing E). intros HI.
  pose proof (inv_nodup _ _ _ _ _ _ _ HI) as Hnodup. simpl in Hnodup.
  assert (cur ∈ ks) as Hcur.
  { apply (inv_known _ _ _ _ _ _ _ HI). simpl. apply elem_of_app. right. apply list_elem_of_here. }
  assert (cur ∉ tp) as Hfresh.
  { apply NoDup_app in Hnodup as (_ & Hdisj & _). intros Hin.
    apply (Hdisj cur Hin), list_elem_of_here. }
  assert (NoDup (tp ++ [cur])) as Hnodup'.
  { apply NoDup_app in Hnodup as (Htp & _ & _).
    apply NoDup_app. split_and!; [done| |apply NoDup_singleton].
    by intros x Hx ->%list_elem_of_singleton. }
  destruct (proj1 (Hdom cur) Hcur) as [t0 Ht0].
  pose proof (inv_tasks _ _ _ _ _ _ _ HI cur) as Htk. simpl in Htk.
  rewrite decide_False, Ht0 in Htk by done.
  pose proof (Hid _ _ Ht0) as Hid0.
  assert (∀ e, e ∈ P → ePred e ≠ cur) as HPne.
  { intros e He Heq. apply Hfresh. rewrite <- Heq. by apply (inv_processed _ _ _ _ _ _ _ HI). }
  assert (incoming P cur ≡ₚ incoming E cur) as Hall.
  { apply filter_submseteq_full.
    - pose proof (inv_sub _ _ _ _ _ _ _ HI) as Hsub. by rewrite app_nil_r in Hsub.
    - assert (cnt cur P = cnt cur E) as Hc.
      { apply (inv_ready _ _ _ _ _ _ _ HI); [done|]. simpl.
        apply elem_of_app. right. apply list_elem_of_here. }
      unfold cnt, incoming in Hc. lia. }
  unfold pop_step. simpl. rewrite Htk, Hid0, build_succMap_lookup.
  set (start := match pend !! cur with
                | Some startReq => Z.max startReq (baseES t0 ?? ds)
                | None => baseES t0 ?? ds
                end).
  set (tk' := <[cur := set_early t0 start (start + duration t0 * DAY_MS)]> tk).
  assert (∀ e, ePred e ≠ cur → constraint_of tk' e = constraint_of tk e) as Hstable.
  { intros e Hne. by apply constraint_of_insert. }
  assert (start = forward_ES ds E tk' cur t0) as Hstart.
  { unfold forward_ES, early_start_of. fold start.
    rewrite <- Hall. unfold start.
    pose proof (inv_pending _ _ _ _ _ _ _ HI cur) as Hp. simpl in Hp. rewrite Hp.
    assert (constraint_of tk' <$> incoming P cur = constraint_of tk <$> incoming P cur) as ->; [|done].
    apply list_fmap_ext. intros i e He. apply Hstable, HPne.
    apply list_elem_of_lookup_2, list_elem_of_filter in He. tauto. }
  set (st1 := mkF q pend indeg (tp ++ [cur]) tk').
  assert (Inv tb0 E ks ds P (outgoing E cur) st1) as HI1.
  { constructor; simpl.
    - intros k. unfold tk'. rewrite lookup_insert.
      destruct (decide (cur = k)) as [<-|Hne].
      + rewrite decide_True by (apply elem_of_app; right; apply list_elem_of_here).
        rewrite Ht0. simpl. unfold forward_task. fold tk'. by rewrite <- Hstart.
      + pose proof (inv_tasks _ _ _ _ _ _ _ HI k) as Hk. simpl in Hk. rewrite Hk. fold tk'.
        destruct (decide (k ∈ tp)) as [Hin|Hin].
        * rewrite decide_True by (apply elem_of_app; by left).
          destruct (tb0 !! k) as [t0'|]; [|done]. simpl. f_equal.
          unfold forward_task, forward_ES.
          assert (constraint_of tk' <$> incoming E k = constraint_of tk <$> incoming E k) as ->; [|done].
          apply list_fmap_ext. intros i e He. apply Hstable.
          apply list_elem_of_lookup_2 in He.
          apply list_elem_of_lookup_1 in Hin as [ik Hik].
          destruct (inv_order _ _ _ _ _ _ _ HI ik k e Hik He) as (j & _ & Hj).
          simpl in Hj. apply list_elem_of_lookup_2 in Hj. by intros Heq; rewrite Heq in Hj.
        * rewrite decide_False; [done|].
          intros [?| ->%list_elem_of_singleton]%elem_of_app; done.
    - intros i k e Hi He. destruct (decide (i < length tp)%nat) as [Hlt|Hge].
      + rewrite lookup_app_l in Hi by done.
        destruct (inv_order _ _ _ _ _ _ _ HI i k e Hi He) as (j & Hji & Hj). simpl in Hj.
        exists j. split; [done|]. rewrite lookup_app_l by lia. done.
      + rewrite lookup_app_r in Hi by lia.
        apply list_lookup_singleton_Some in Hi as [Hi <-].
        assert (e ∈ incoming P cur) as HeP by (by rewrite Hall).
        apply list_elem_of_filter in HeP as [_ HeP].
        apply (inv_processed _ _ _ _ _ _ _ HI) in HeP. simpl in HeP.
        apply list_elem_of_lookup_1 in HeP as [j Hj]. exists j.
        pose proof (lookup_lt_Some _ _ _ Hj). split; [lia|].
        by rewrite lookup_app_l by done.
    - by rewrite <- app_assoc.
    - intros k Hk. apply (inv_known _ _ _ _ _ _ _ HI). simpl. by rewrite <- app_assoc in Hk.
    - apply (inv_indegree _ _ _ _ _ _ _ HI).
    - intros k Hk. rewrite <- app_assoc. simpl. by apply (inv_ready _ _ _ _ _ _ _ HI).
    - intros k. pose proof (inv_pending _ _ _ _ _ _ _ HI k) as Hp. simpl in Hp. rewrite Hp.
      f_equal. apply list_fmap_ext. intros i e He. symmetry. apply Hstable, HPne.
      apply list_elem_of_lookup_2, list_elem_of_filter in He. tauto.
    - intros e He. apply elem_of_app. left. by apply (inv_processed _ _ _ _ _ _ _ HI).
    - assert (P ++ outgoing E cur = (tp ++ [cur]) ≫= outgoing E) as ->.
      { rewrite bind_app. simpl. by rewrite app_nil_r. }
      by apply bind_outgoing_submseteq. }
  destruct (relax_all_inv (outgoing E cur) P st1 start (start + duration t0 * DAY_MS) HI1)
    as (HI2 & Htopo & Htasks).
  - intros e [-> _]%list_elem_of_filter. simpl.
    apply elem_of_app. right. apply list_elem_of_here.
  - intros e succ [Hpe _]%list_elem_of_filter Hsucc. simpl in *.
    unfold constraint_of. rewrite Hpe, Hsucc.
    unfold tk'. rewrite lookup_insert_eq. done.
  - fold st1. rewrite Htopo. simpl. split; [|done].
    rewrite bind_app. simpl. by rewrite app_nil_r.
Qed.

(** The loop keeps the invariant and pops one activity per iteration until
    the queue is empty. *)
Lemma forward_loop_inv n st :
  Boundary tb0 E ks ds st →
  Boundary tb0 E ks ds (forward_loop n ds (build_succMap E) st) ∧
  (queue (forward_loop n ds (build_succMap E) st) = [] ∨
   length (topo (forward_loop n ds (build_succMap E) st)) = (length (topo st) + n)%nat).
Proof.
  revert st. induction n as [|n IH]; intros st HB; simpl.
  - split; [done|]. right. lia.
  - destruct st as [qu pend indeg tp tk]. simpl. destruct qu as [|cur q].
    + split; [done|]. by left.
    + destruct (pop_step_inv cur q pend indeg tp tk HB) as [HB' Htopo].
      destruct (IH _ HB') as [HB'' Hlen]. split; [done|].
      destruct Hlen as [?|Hlen]; [by left|right].
      rewrite Hlen, Htopo, length_app. simpl. lia.
Qed.

Lemma init_state_inv : Boundary tb0 E ks ds (init_state ks tb0 E).
Proof.
  unfold Boundary, init_state, init_queue. simpl. constructor; simpl.
  - done.
  - intros i k e Hi. done.
  - rewrite sort_by_perm. by apply NoDup_filter.
  - intros k. rewrite sort_by_perm. intros [_ ?]%list_elem_of_filter. done.
  - intros k Hk. rewrite build_indegree_lookup by done. f_equal. rewrite cnt_nil. lia.
  - intros k Hk. rewrite sort_by_perm, list_elem_of_filter, cnt_nil.
    rewrite build_indegree_lookup by done. simpl.
    split; [intros [Hc _]; lia|intros Hc; split; [lia|done]].
  - intros k. by rewrite lookup_empty.
  - intros e ?%elem_of_nil. done.
  - apply submseteq_nil_l.
Qed.

(** With one unit of fuel per activity the queue is empty at the end: the
    loop of the model stops where the loop of the program does. *)
Lemma loop_exit_inv :
  Boundary tb0 E ks ds (loop_exit tb0 E ks ds) ∧ queue (loop_exit tb0 E ks ds) = [].
Proof.
  unfold loop_exit.
  destruct (forward_loop_inv (length ks) _ init_state_inv) as [HB Hlen].
  split; [done|]. destruct Hlen as [?|Hlen]; [done|].
  set (st := forward_loop _ _ _ _) in *.
  assert (length (topo st ++ queue st) ≤ length ks)%nat as Hle.
  { apply submseteq_length, NoDup_submseteq.
    - apply (inv_nodup _ _ _ _ _ _ _ HB).
    - apply (inv_known _ _ _ _ _ _ _ HB). }
  rewrite length_app, Hlen in Hle. simpl in Hle.
  apply nil_length_inv. lia.
Qed.

End Kahn.

(** ** The stages of [simulateScenario] *)

Section Prepared.

Context (now : Z) (rows : list Row) (impact : option Impact).

Let m := build_idMap rows.
Let ds := defaultStart now m.
Let tb0 := prepared now rows impact.

Lemma prepared_lookup k :
  tb0 !! k = prepare_task ds impact k <$> tbl m !! k.
Proof.
  unfold tb0, prepared, apply_impact, prepare_task, impact_delta. fold m ds.
  destruct impact as [imp|]; [|by rewrite lookup_fmap].
  destruct (activityId imp) as [a|] eqn:Ha.
  - destruct (decide (a = k)) as [->|Hne].
    + rewrite bool_decide_eq_true_2 by done.
      rewrite lookup_fmap. destruct (tbl m !! k) as [t|] eqn:Ht; simpl.
      * by rewrite lookup_insert_eq.
      * by rewrite lookup_fmap, Ht.
    + rewrite bool_decide_eq_false_2 by congruence.
      rewrite (lookup_fmap _ _ a). destruct (tbl m !! a) as [t|]; simpl.
      * by rewrite lookup_insert_ne, lookup_fmap.
      * by rewrite lookup_fmap.
  - rewrite bool_decide_eq_false_2 by congruence. by rewrite lookup_fmap.
Qed.

Lemma prepare_task_id k t : id (prepare_task ds impact k t) = id t.
Proof. unfold prepare_task. by destruct (impact_delta impact k). Qed.

Lemma prepare_task_row k t : row (prepare_task ds impact k t) = row t.
Proof. unfold prepare_task. by destruct (impact_delta impact k). Qed.

Lemma prepare_task_baseES k t :
  baseES (prepare_task ds impact k t) = Some (baseES t ?? ds).
Proof. unfold prepare_task. by destruct (impact_delta impact k). Qed.

Lemma prepare_task_fresh k t :
  tES t = None → tES (prepare_task ds impact k t) = None.
Proof. unfold prepare_task. by destruct (impact_delta impact k). Qed.


Lemma deriveDurationDays_nonneg r : 0 ≤ deriveDurationDays r.
Proof.
  unfold deriveDurationDays.
  destruct (DurDays r); [case_bool_decide; [done|]|];
    destruct (parseDate (ES r)), (parseDate (EF r)); lia.
Qed.

Lemma prepared_dom k : k ∈ keys m ↔ is_Some (tb0 !! k).
Proof.
  rewrite prepared_lookup, fmap_is_Some. apply build_idMap_dom.
Qed.

Lemma prepared_id k t : tb0 !! k = Some t → id t = k.
Proof.
  rewrite prepared_lookup. intros (t' & Ht' & ->)%fmap_Some.
  rewrite prepare_task_id.
  apply build_idMap_lookup in Ht' as (i & r & _ & _ & ->). done.
Qed.

Lemma prepared_fresh k t : tb0 !! k = Some t → tES t = None.
Proof.
  rewrite prepared_lookup. intros (t' & Ht' & ->)%fmap_Some.
  apply prepare_task_fresh.
  apply build_idMap_lookup in Ht' as (i & r & _ & _ & ->). done.
Qed.


Lemma prepared_baseES k t : tb0 !! k = Some t → is_Some (baseES t).
Proof.
  rewrite prepared_lookup. intros (t' & Ht' & ->)%fmap_Some.
  rewrite prepare_task_baseES. by eexists.
Qed.

End Prepared.

Section Pipeline.

Context (now : Z) (rows : list Row) (rels : list Rel) (impact : option Impact).

Let m := build_idMap rows.
Let ds := defaultStart now m.
Let tb0 := prepared now rows impact.
Let E := edges_of now rows rels impact.

Lemma edges_known e : e ∈ E → ePred e ∈ keys m ∧ eSucc e ∈ keys m.
Proof.
  unfold E, edges_of, make_edges. fold tb0.
  intros (r & -> & [Hr _]%list_elem_of_filter)%list_elem_of_fmap.
  unfold m. rewrite !prepared_dom. done.
Qed.

(** The relationships kept do not depend on dates, durations or the impact:
    only on which ids are present. *)
Lemma edges_of_eq :
  E = normalize_rel <$> filter (λ r, PredID r ∈ keys m ∧ SuccID r ∈ keys m) rels.
Proof.
  unfold E, edges_of, make_edges. fold tb0. f_equal.
  apply list_filter_iff. intros r. unfold m. by rewrite !(prepared_dom now rows impact).
Qed.

(** The forward pass ends with an empty queue and the loop invariant. *)
Lemma forward_pass_inv :
  Boundary tb0 E (keys m) ds (forward_pass now rows rels impact) ∧
  queue (forward_pass now rows rels impact) = [].
Proof.
  apply (loop_exit_inv tb0 E (keys m) ds).
  - apply build_idMap_NoDup.
  - apply prepared_dom.
  - apply prepared_id.
  - apply edges_known.
Qed.

End Pipeline.

Section KahnExit.

Context (tb0 : gmap Z Task) (E : list Edge) (ks : list Z) (ds : Z).

Lemma filter_ext_in {A} (P Q : A → Prop)
    `{!∀ x, Decision (P x)} `{!∀ x, Decision (Q x)} (l : list A) :
  (∀ x, x ∈ l → P x ↔ Q x) → filter P l = filter Q l.
Proof.
  induction l as [|x l IH]; intros Hext; [done|].
  rewrite !filter_cons. rewrite IH by (intros y Hy; apply Hext; by right).
  destruct (decide (P x)) as [HP|HP], (decide (Q x)) as [HQ|HQ]; try done.
  - destruct HQ. apply Hext; [by left|done].
  - destruct HP. apply Hext; [by left|done].
Qed.

(** When the loop has exited, the popped activities are closed under "all
    predecessors popped". *)
Lemma Boundary_closed st k :
  Boundary tb0 E ks ds st → queue st = [] → k ∈ ks →
  k ∈ topo st ↔ ∀ e, e ∈ incoming E k → ePred e ∈ topo st.
Proof.
  intros HB Hq Hk.
  pose proof (inv_ready _ _ _ _ _ _ _ HB k Hk) as Hready.
  rewrite Hq, app_nil_r in Hready.
  assert (NoDup (topo st)) as Hnd.
  { pose proof (inv_nodup _ _ _ _ _ _ _ HB) as Hnd.
    by apply NoDup_app in Hnd as (? & _ & _). }
  split.
  - intros [i Hi]%list_elem_of_lookup_1 e He.
    destruct (inv_order _ _ _ _ _ _ _ HB i k e Hi He) as (j & _ & Hj).
    by apply list_elem_of_lookup_2 in Hj.
  - intros Hall. apply Hready.
    unfold cnt, incoming. rewrite (bind_outgoing_perm E (topo st) Hnd).
    f_equal. f_equal. rewrite list_filter_filter. apply filter_ext_in.
    intros e He. split; [tauto|]. intros Hs. split; [done|].
    apply Hall. by apply list_elem_of_filter.
Qed.

End KahnExit.

(** ** Generic facts about the backward pass *)

Lemma complete_order_elem ks tp k :
  k ∈ complete_order ks tp ↔ k ∈ tp ∨ k ∈ ks.
Proof.
  unfold complete_order. revert tp. induction ks as [|x ks IH]; intros tp; simpl.
  - rewrite elem_of_nil. tauto.
  - rewrite IH, elem_of_cons. case_bool_decide as Hx.
    + split; [tauto|]. intros [?|[->|?]]; tauto.
    + rewrite elem_of_app, list_elem_of_singleton. tauto.
Qed.

(** The limits depend only on early dates, base dates and durations, which
    assigning late dates does not change. *)
Lemma late_limit_step_set_late (tb tb' : gmap Z Task) p lim e :
  (∀ k, tb' !! k = tb !! k ∨
        ∃ t lf ls, tb !! k = Some t ∧ tb' !! k = Some (set_late t lf ls)) →
  late_limit_step tb' p lim e = late_limit_step tb p lim e.
Proof.
  intros Hrel. unfold late_limit_step.
  destruct (Hrel (eSucc e)) as [->|(t & lf & ls & -> & ->)]; done.
Qed.

Lemma late_limits_set_late (tb tb' : gmap Z Task) p l :
  (∀ k, tb' !! k = tb !! k ∨
        ∃ t lf ls, tb !! k = Some t ∧ tb' !! k = Some (set_late t lf ls)) →
  late_limits tb' p l = late_limits tb p l.
Proof.
  intros Hrel. unfold late_limits. generalize (@None Z, @None Z).
  induction l as [|e l IH]; intros lim; simpl; [done|].
  by rewrite (late_limit_step_set_late tb tb' p lim e Hrel), IH.
Qed.

(** The backward pass visits the activities of [l] in turn; each visit
    computes the late dates from the early table alone, whatever was visited
    before. *)
Lemma backward_fold (tb : gmap Z Task) p (Ed : list Edge) l k :
  fold_left (backward_step p (build_succMap Ed)) l tb !! k =
  (λ t, if decide (k ∈ l) then late_task p Ed tb k t else t) <$> tb !! k.
Proof.
  revert k. induction l as [|x l IH] using rev_ind; intros k.
  - simpl. by destruct (tb !! k).
  - rewrite fold_left_app. simpl. set (tb' := fold_left _ l tb) in *.
    assert (∀ j, tb' !! j = tb !! j ∨
              ∃ t lf ls, tb !! j = Some t ∧ tb' !! j = Some (set_late t lf ls)) as Hrel.
    { intros j. rewrite IH. destruct (tb !! j) as [t|]; simpl; [|by left].
      case_decide; [right|by left]. by eexists t, _, _. }
    assert (∀ j, j ≠ x → (j ∈ l ++ [x]) ↔ j ∈ l) as Hmem.
    { intros j Hj. rewrite elem_of_app, list_elem_of_singleton. tauto. }
    unfold backward_step. destruct (tb' !! x) as [task'|] eqn:Hx.
    + rewrite build_succMap_lookup, (late_limits_set_late tb tb' _ _ Hrel).
      rewrite lookup_insert. destruct (decide (x = k)) as [->|Hne].
      * rewrite IH in Hx. destruct (tb !! k) as [t|]; simpl in *; [|done].
        rewrite decide_True by (apply elem_of_app; right; apply list_elem_of_here).
        f_equal. unfold late_task. case_decide; simplify_eq; done.
      * rewrite IH. destruct (tb !! k) as [t|]; simpl; [|done]. f_equal.
        destruct (decide (k ∈ l)) as [Hin|Hin].
        -- by rewrite decide_True by (apply Hmem; done).
        -- by rewrite decide_False by (rewrite Hmem; done).
    + rewrite IH. rewrite IH in Hx. destruct (decide (x = k)) as [->|Hne].
      * destruct (tb !! k); simpl in *; done.
      * destruct (tb !! k) as [t|]; simpl; [|done]. f_equal.
        destruct (decide (k ∈ l)) as [Hin|Hin].
        -- by rewrite decide_True by (apply Hmem; done).
        -- by rewrite decide_False by (rewrite Hmem; done).
Qed.


Section Passes.

Context (now : Z) (rows : list Row) (rels : list Rel) (impact : option Impact).

Let m := build_idMap rows.
Let ds := defaultStart now m.
Let tb0 := prepared now rows impact.
Let E := edges_of now rows rels impact.
Let st := forward_pass now rows rels impact.
Let early := early_table now rows rels impact.
Let order := topoOrder_of now rows rels impact.
Let pf := projectFinish now rows rels impact.
Let late := late_table now rows rels impact.

Lemma forward_tasks_lookup k :
  tasks st !! k =
  if decide (k ∈ topo st) then forward_task ds E (tasks st) k <$> tb0 !! k else tb0 !! k.
Proof.
  destruct (forward_pass_inv now rows rels impact) as [HB _].
  apply (inv_tasks _ _ _ _ _ _ _ HB).
Qed.

Lemma topo_known k : k ∈ topo st → k ∈ keys m.
Proof.
  destruct (forward_pass_inv now rows rels impact) as [HB _].
  intros Hk. apply (inv_known _ _ _ _ _ _ _ HB). apply elem_of_app. by left.
Qed.

Lemma topo_NoDup : NoDup (topo st).
Proof.
  destruct (forward_pass_inv now rows rels impact) as [HB _].
  pose proof (inv_nodup _ _ _ _ _ _ _ HB) as Hnd.
  by apply NoDup_app in Hnd as (? & _ & _).
Qed.

(** Popped activities come after the predecessors of all their incoming
    relationships. *)
Lemma topo_order i k e :
  topo st !! i = Some k → e ∈ incoming E k →
  ∃ j, (j < i)%nat ∧ topo st !! j = Some (ePred e).
Proof.
  destruct (forward_pass_inv now rows rels impact) as [HB _].
  apply (inv_order _ _ _ _ _ _ _ HB).
Qed.

(** An activity is popped exactly when the predecessors of all its incoming
    relationships are. *)
Lemma topo_closed k :
  k ∈ keys m → k ∈ topo st ↔ ∀ e, e ∈ incoming E k → ePred e ∈ topo st.
Proof.
  intros Hk. destruct (forward_pass_inv now rows rels impact) as [HB Hq].
  by apply (Boundary_closed _ _ _ _ _ _ HB Hq).
Qed.

(** The fallback leaves the dates of popped activities alone, so the
    constraint of a relationship whose predecessor was popped reads the same
    in the table after the fallback. *)
Lemma constraint_of_early e :
  ePred e ∈ topo st → constraint_of early e = constraint_of (tasks st) e.
Proof.
  intros Hp. unfold constraint_of, early, early_table. fold m ds st.
  rewrite !lookup_fmap, (forward_tasks_lookup (ePred e)).
  rewrite decide_True by done.
  destruct (tb0 !! ePred e) as [p0|]; [|done]. simpl.
  destruct (tasks st !! eSucc e) as [s|]; [|done]. simpl.
  unfold fallback_early. destruct (tES s); done.
Qed.

Lemma early_lookup k :
  early !! k =
  (λ t0, if decide (k ∈ topo st) then forward_task ds E early k t0 else fallback_task ds t0)
    <$> tb0 !! k.
Proof.
  unfold early at 1, early_table. fold m ds st.
  rewrite lookup_fmap, forward_tasks_lookup.
  destruct (decide (k ∈ topo st)) as [Hin|Hin].
  - destruct (tb0 !! k) as [t0|]; [|done]. simpl. f_equal.
    unfold forward_task, forward_ES.
    assert (constraint_of early <$> incoming E k = constraint_of (tasks st) <$> incoming E k) as ->; [|done].
    apply list_fmap_ext. intros i e He. apply constraint_of_early.
    apply list_elem_of_lookup_2 in He.
    apply list_elem_of_lookup_1 in Hin as [ik Hik].
    destruct (topo_order ik k e Hik He) as (j & _ & Hj).
    by apply list_elem_of_lookup_2 in Hj.
  - destruct (tb0 !! k) as [t0|] eqn:Ht0; [|done]. simpl.
    unfold fallback_early. by rewrite (prepared_fresh now rows impact k t0 Ht0).
Qed.

Lemma early_dom k : is_Some (early !! k) ↔ k ∈ keys m.
Proof.
  rewrite early_lookup, fmap_is_Some. symmetry. apply prepared_dom.
Qed.

(** After the forward pass every activity has early dates, a base date, and
    [EF = ES + duration]. *)
Lemma early_consistent k t :
  early !! k = Some t →
  ∃ t0 es, tb0 !! k = Some t0 ∧ t = set_early t0 es (es + duration t0 * DAY_MS).
Proof.
  rewrite early_lookup. intros (t0 & Ht0 & ->)%fmap_Some.
  case_decide; eexists t0, _; (split; [done|]); reflexivity.
Qed.

Lemma order_covers k : k ∈ keys m → k ∈ order.
Proof.
  intros Hk. unfold order, topoOrder_of. apply complete_order_elem. by right.
Qed.

Lemma late_lookup k : late !! k = late_task pf E early k <$> early !! k.
Proof.
  unfold late, late_table, backward_pass. fold pf E order early.
  rewrite backward_fold. destruct (early !! k) as [t|] eqn:Ht; simpl; [|done].
  rewrite decide_True; [done|].
  apply elem_of_reverse, order_covers, early_dom. by eexists.
Qed.

Lemma final_lookup k :
  final_table now rows rels impact !! k =
  (λ t, float_task ds pf (build_succMap E) late (late_task pf E early k t)) <$> early !! k.
Proof.
  unfold final_table. fold m ds pf E late.
  rewrite lookup_fmap, late_lookup. by destruct (early !! k).
Qed.

(** *** The rows returned *)

Lemma keys_nonempty r k : r ∈ rows → ActivityID r = Some k → keys m ≠ [].
Proof.
  intros Hin Hk Hnil.
  pose proof (build_idMap_covers rows r k Hin Hk) as Hsome.
  apply build_idMap_dom in Hsome. fold m in Hsome. rewrite Hnil in Hsome.
  by apply elem_of_nil in Hsome.
Qed.

End Passes.

Lemma simulateScenario_unfold now rows rels impact :
  simulateScenario now rows rels impact =
  if bool_decide (keys (build_idMap rows) = []) then rows
  else emit_row (final_table now rows rels impact) <$> rows.
Proof. unfold simulateScenario. by destruct rows. Qed.

Section Results.

Context (now : Z) (rows : list Row) (rels : list Rel) (impact : option Impact).

Let m := build_idMap rows.
Let ds := defaultStart now m.
Let tb0 := prepared now rows impact.
Let E := edges_of now rows rels impact.
Let early := early_table now rows rels impact.
Let pf := projectFinish now rows rels impact.
Let late := late_table now rows rels impact.



(** A row with a finite id is rebuilt from the object stored under its id. *)
Lemma simulateScenario_lookup_Some i r k :
  rows !! i = Some r → ActivityID r = Some k →
  ∃ t0 es,
    tb0 !! k = Some t0 ∧
    early !! k = Some (set_early t0 es (es + duration t0 * DAY_MS)) ∧
    simulateScenario now rows rels impact !! i =
      Some (emit_row (final_table now rows rels impact) r) ∧
    final_table now rows rels impact !! k =
      Some (float_task ds pf (build_succMap E) late
              (late_task pf E early k (set_early t0 es (es + duration t0 * DAY_MS)))).
Proof.
  intros Hi Hk.
  assert (r ∈ rows) as Hin by (by eapply list_elem_of_lookup_2).
  assert (keys m ≠ []) as Hne by (by eapply keys_nonempty).
  assert (is_Some (early !! k)) as [t Ht].
  { apply early_dom, build_idMap_dom. by eapply build_idMap_covers. }
  destruct (early_consistent _ _ _ _ k t Ht) as (t0 & es & Ht0 & ->).
  exists t0, es. split_and!; [done|done| |].
  - rewrite simulateScenario_unfold, bool_decide_eq_false_2 by done.
    by rewrite list_lookup_fmap, Hi.
  - unfold ds, pf, E, late, early in *. by rewrite final_lookup, Ht.
Qed.

End Results.

(** ** Properties of the schedule returned *)






(** ** Cycles *)




(** ** Determinism and the clock *)

Lemma min_baseES_fold (tb : gmap Z Task) l acc :
  is_Some acc ∨ (∃ k, k ∈ l ∧ is_Some (tb !! k ≫= baseES)) →
  is_Some (fold_left (λ acc k,
      match tb !! k ≫= baseES with
      | Some b => min_limit acc b
      | None => acc
      end) l acc).
Proof.
  revert acc. induction l as [|x l IH]; intros acc Hcase; simpl.
  - destruct Hcase as [?|(k & ?%elem_of_nil & _)]; done.
  - apply IH. destruct (tb !! x ≫= baseES) as [b|] eqn:Hx.
    + left. by eexists.
    + destruct Hcase as [?|(k & [->|Hk]%elem_of_cons & Hb)].
      * by left.
      * rewrite Hx in Hb. by destruct Hb.
      * right. by exists k.
Qed.

(** With a baseline start in the network the default epoch does not read
    the clock. *)
Lemma defaultStart_clock_free now1 now2 rows :
  has_baseline_start rows →
  defaultStart now1 (build_idMap rows) = defaultStart now2 (build_idMap rows).
Proof.
  intros (k & t & Ht & Hb). unfold defaultStart.
  assert (is_Some (min_baseES (build_idMap rows))) as [v ->]; [|done].
  apply min_baseES_fold. right. exists k. split.
  - apply build_idMap_dom. by eexists.
  - by rewrite Ht.
Qed.

(** C5 (as amended): two invocations with the same rows, relationships and
    impact return the same schedule whatever the clock reads, provided some
    activity of the network has a baseline early start. *)
Theorem simulateScenario_deterministic
    (now1 now2 : Z) (rows : list Row) (rels : list Rel) (impact : option Impact)
    (Hbase : has_baseline_start rows) :
  simulateScenario now1 rows rels impact = simulateScenario now2 rows rels impact.
Proof.
  pose proof (defaultStart_clock_free now1 now2 rows Hbase) as Heq.
  rewrite !simulateScenario_unfold.
  unfold final_table, late_table, projectFinish, topoOrder_of, early_table,
    forward_pass, edges_of, prepared.
  by rewrite Heq.
Qed.

Lemma simulateScenario_deterministic_witness :
  simulateScenario 0 chain_rows chain_rels None
  = simulateScenario 1234567 chain_rows chain_rels None.
Proof.
  apply (simulateScenario_deterministic 0 1234567 chain_rows chain_rels None).
  exists 1, (new_task 0 (activity 1 (Some 0) 5) 1). split; [reflexivity|].
  by eexists.
Defined.

(** C5 (as stated) fails: with no baseline early start anywhere the default
    epoch is [Date.now()], and two invocations a day apart return different
    dates for the same input. *)
Lemma simulateScenario_clock_dependent :
  simulateScenario 0 undated_rows [] None
    = [mkRow (Some 1) (Some 0) (Some 1) (Some 0) (Some 1) (Some 1) (Some 0) (Some 0) []] ∧
  simulateScenario DAY_MS undated_rows [] None
    = [mkRow (Some 1) (Some 1) (Some 2) (Some 1) (Some 2) (Some 1) (Some 0) (Some 0) []].
Proof. split; reflexivity. Qed.

(** ** The forward pass *)

(** The queue is seeded with the activities no relationship enters, ordered
    by baseline start. *)
Lemma init_queue_spec ks tb E :
  let q0 := queue (init_state ks tb E) in
  Sorted (λ a b, sortKey tb a ≤ sortKey tb b) q0 ∧
  ∀ k, k ∈ q0 ↔ k ∈ ks ∧ incoming E k = [].
Proof.
  simpl. unfold init_queue. split; [apply sort_by_sorted|].
  intros k. rewrite sort_by_perm, list_elem_of_filter.
  split.
  - intros [Hz Hk]. split; [done|].
    rewrite build_indegree_lookup in Hz by done. simpl in Hz.
    unfold cnt in Hz. apply nil_length_inv. lia.
  - intros [Hk Hin]. split; [|done].
    rewrite build_indegree_lookup by done. simpl. unfold cnt. by rewrite Hin.
Qed.

(** C2: the forward pass.  The loop starts from the activities without
    incoming relationship, sorted by baseline start.  Every activity it pops
    gets as early start the larger of its baseline start (the default epoch
    when it has none) and the largest constraint of its incoming
    relationships, each read from the dates of a predecessor popped before
    it by the formula of its type; its early finish is [duration] days
    later. *)
Theorem forward_pass_early_dates
    (now : Z) (rows : list Row) (rels : list Rel) (impact : option Impact) :
  let st := forward_pass now rows rels impact in
  let E := edges_of now rows rels impact in
  let ds := defaultStart now (build_idMap rows) in
  let tb0 := prepared now rows impact in
  let q0 := queue (init_state (keys (build_idMap rows)) tb0 E) in
  st = forward_loop (length (keys (build_idMap rows))) ds (build_succMap E)
         (init_state (keys (build_idMap rows)) tb0 E) ∧
  Sorted (λ a b, sortKey tb0 a ≤ sortKey tb0 b) q0 ∧
  (∀ k, k ∈ q0 ↔ k ∈ keys (build_idMap rows) ∧ incoming E k = []) ∧
  ∀ i k, topo st !! i = Some k →
    ∃ t0 t es,
      tb0 !! k = Some t0 ∧ tasks st !! k = Some t ∧
      baseES t0 = Some (parseDate (ES (row t0)) ?? ds) ∧
      es = early_start_of (baseES t0 ?? ds)
             (max_opt (constraint_of (tasks st) <$> incoming E k)) ∧
      tES t = Some es ∧ tEF t = Some (es + duration t0 * DAY_MS) ∧
      ∀ e, e ∈ incoming E k →
        ∃ j p es_p ef_p,
          (j < i)%nat ∧ topo st !! j = Some (ePred e) ∧
          tasks st !! ePred e = Some p ∧ tES p = Some es_p ∧ tEF p = Some ef_p ∧
          constraint_of (tasks st) e =
            match eType e with
            | FS => ef_p + (eLag e ?? 0) * DAY_MS
            | SS => es_p + (eLag e ?? 0) * DAY_MS
            | FF => ef_p + (eLag e ?? 0) * DAY_MS - duration t0 * DAY_MS
            | SF => es_p + (eLag e ?? 0) * DAY_MS - duration t0 * DAY_MS
            end.
Proof.
  intros st E ds tb0 q0. split; [reflexivity|].
  destruct (init_queue_spec (keys (build_idMap rows)) tb0 E) as [Hsorted Hseed].
  split; [exact Hsorted|]. split; [exact Hseed|].
  assert (∀ k, k ∈ topo st → ∃ t0, tb0 !! k = Some t0 ∧
            tasks st !! k = Some (forward_task ds E (tasks st) k t0)) as Hpopped.
  { intros k Hk. pose proof (forward_tasks_lookup now rows rels impact k) as Hl.
    fold st in Hl. rewrite decide_True in Hl by done.
    apply topo_known in Hk.
    apply (prepared_dom now rows impact) in Hk as [t0 Ht0].
    exists t0. split; [exact Ht0|]. by rewrite Ht0 in Hl. }
  intros i k Hi.
  destruct (Hpopped k (list_elem_of_lookup_2 _ _ _ Hi)) as (t0 & Ht0 & Ht).
  eexists t0, _, _. split; [exact Ht0|]. split; [exact Ht|].
  split.
  { unfold tb0 in Ht0. rewrite prepared_lookup in Ht0.
    apply fmap_Some in Ht0 as (t1 & Ht1 & ->).
    apply build_idMap_lookup in Ht1 as (j & r1 & _ & _ & ->).
    by rewrite prepare_task_baseES, prepare_task_row. }
  split; [reflexivity|]. split; [reflexivity|]. split; [reflexivity|].
  intros e He.
  destruct (topo_order now rows rels impact i k e Hi He) as (j & Hji & Hj).
  destruct (Hpopped _ (list_elem_of_lookup_2 _ _ _ Hj)) as (p0 & Hp0 & Hp).
  eexists j, _, _, _. split; [exact Hji|]. split; [exact Hj|]. split; [exact Hp|].
  split; [reflexivity|]. split; [reflexivity|].
  apply list_elem_of_filter in He as [Hs _].
  unfold constraint_of. rewrite Hp, Hs, Ht. simpl.
  unfold needed_of. by destruct (eType e).
Qed.

Lemma forward_pass_early_dates_witness :
  ∃ t, tasks (forward_pass 0 chain_rows chain_rels None) !! 2 = Some t ∧
       tES t = Some (5 * DAY_MS) ∧ tEF t = Some (8 * DAY_MS).
Proof.
  destruct (forward_pass_early_dates 0 chain_rows chain_rels None)
    as (_ & _ & _ & Hpop).
  destruct (Hpop 1%nat 2 eq_refl)
    as (t0 & t & es & Ht0 & Ht & _ & Hes & HES & HEF & _).
  exists t. split; [exact Ht|].
  vm_compute in Ht0. injection Ht0 as <-.
  rewrite HES, HEF, Hes. split; reflexivity.
Defined.

(** ** The backward pass *)

(** The late dates of every activity are computed from the early table:
    the limits of its outgoing relationships read the successors' early
    start and early finish, never their late dates. *)
Lemma late_table_lookup now rows rels impact k :
  late_table now rows rels impact !! k =
  late_task (projectFinish now rows rels impact) (edges_of now rows rels impact)
    (early_table now rows rels impact) k <$> early_table now rows rels impact !! k.
Proof. apply late_lookup. Qed.

(** C1 (code defect): the backward pass on the network [slack_rows].  The
    successor B has late start 9 (it can slip until D finishes on day 10),
    so the late finish of A should be [LS(B) - lag = 9]; the code returns
    [LF(A) = 1], which is [ES(B) - lag]: the limit of the FS relationship is
    read from the successor's early start.  Activities without outgoing
    relationship (B and D) do get [max(EF, projectFinish) = 10]. *)
Theorem backward_pass_on_slack_network :
  simulateScenario 0 slack_rows slack_rels None =
  [ mkRow (Some 1) (Some 0) (Some 1) (Some 0) (Some 1) (Some 1) (Some 0) (Some 0) [];
    mkRow (Some 2) (Some 1) (Some 2) (Some 9) (Some 10) (Some 1) (Some 8) (Some 8) [];
    mkRow (Some 3) (Some 0) (Some 10) (Some 0) (Some 10) (Some 10) (Some 0) (Some 0) [] ].
Proof. reflexivity. Qed.

(** ** Two solves of the same network *)

Section TwoRuns.

Context (now1 now2 : Z) (rows1 rows2 : list Row) (rels : list Rel)
        (imp1 imp2 : option Impact).
Context (Hkeys : keys (build_idMap rows1) = keys (build_idMap rows2)).

Let E1 := edges_of now1 rows1 rels imp1.
Let E2 := edges_of now2 rows2 rels imp2.
Let st1 := forward_pass now1 rows1 rels imp1.
Let st2 := forward_pass now2 rows2 rels imp2.

(** Two networks with the same activities have the same relationships. *)
Lemma edges_same : E1 = E2.
Proof. unfold E1, E2. by rewrite !edges_of_eq, Hkeys. Qed.

(** The set of popped activities does not depend on dates, durations or
    the order in which ready activities are taken. *)
Lemma topo_subset k : k ∈ topo st1 → k ∈ topo st2.
Proof.
  intros [i Hi]%list_elem_of_lookup_1. revert k Hi.
  induction i as [i IH] using lt_wf_ind. intros k Hi.
  apply topo_closed.
  - rewrite <- Hkeys. eapply topo_known, list_elem_of_lookup_2, Hi.
  - fold E2. rewrite <- edges_same. intros e He.
    destruct (topo_order now1 rows1 rels imp1 i k e Hi He) as (j & Hji & Hj).
    by apply (IH j Hji).
Qed.

End TwoRuns.

Lemma topo_same now1 now2 rows1 rows2 rels imp1 imp2 k :
  keys (build_idMap rows1) = keys (build_idMap rows2) →
  k ∈ topo (forward_pass now1 rows1 rels imp1) ↔
  k ∈ topo (forward_pass now2 rows2 rels imp2).
Proof. intros Hkeys. split; by apply topo_subset. Qed.

(** ** Early dates read through [ES_of] and [EF_of] *)





Section EarlyView.

Context (now : Z) (rows : list Row) (rels : list Rel) (impact : option Impact).

Let ds := defaultStart now (build_idMap rows).
Let E := edges_of now rows rels impact.
Let early := early_table now rows rels impact.
Let st := forward_pass now rows rels impact.

Lemma early_view k t0 :
  prepared now rows impact !! k = Some t0 →
  ES_of early k =
    (if decide (k ∈ topo st) then forward_ES ds E early k t0 else baseES t0 ?? ds) ∧
  EF_of early k = ES_of early k + duration t0 * DAY_MS ∧
  duration <$> early !! k = Some (duration t0).
Proof.
  intros Ht0. unfold ES_of, EF_of, early. rewrite early_lookup, Ht0. simpl.
  unfold st. destruct (decide (k ∈ topo (forward_pass now rows rels impact))); done.
Qed.


End EarlyView.

(** ** Monotonicity of the project finish in the scenario delta *)

Section Monotone.

Context (now : Z) (rows : list Row) (rels : list Rel) (a d1 d2 : Z).
Context (Hd : d1 ≤ d2).
Context (Hno : ∀ r, r ∈ rels → SuccID r = a →
           normalizeRelType (RelTypeRaw r) = FS ∨ normalizeRelType (RelTypeRaw r) = SS).

Let imp1 := Some (mkImpact (Some a) (Some d1)).
Let imp2 := Some (mkImpact (Some a) (Some d2)).
Let ds := defaultStart now (build_idMap rows).
Let E := edges_of now rows rels imp1.
Let st1 := forward_pass now rows rels imp1.
Let st2 := forward_pass now rows rels imp2.






End Monotone.






(** ** The returned row, computed from the early dates *)

Lemma late_limit_step_view tb p lim e s es ef :
  tb !! eSucc e = Some s → tES s = Some es → tEF s = Some ef →
  late_limit_step tb p lim e = limit_step_view (ES_of tb) (EF_of tb) lim e.
Proof.
  intros Hs Hes Hef. unfold late_limit_step, limit_step_view, ES_of, EF_of.
  rewrite Hs. simpl. rewrite Hes, Hef. done.
Qed.

Lemma free_limit_step_view tb p lim e s es ef :
  tb !! eSucc e = Some s → tES s = Some es → tEF s = Some ef →
  free_limit_step tb p lim e = free_step_view (ES_of tb) (EF_of tb) lim e.
Proof.
  intros Hs Hes Hef. unfold free_limit_step, free_step_view, ES_of, EF_of.
  rewrite Hs. simpl. rewrite Hes, Hef. done.
Qed.

Lemma fold_left_ext_in {A B} (f g : A → B → A) (l : list B) (a : A) :
  (∀ x acc, x ∈ l → f acc x = g acc x) → fold_left f l a = fold_left g l a.
Proof.
  revert a. induction l as [|x l IH]; intros a Hext; simpl; [done|].
  rewrite Hext by apply list_elem_of_here. apply IH.
  intros y acc Hy. apply Hext. by apply list_elem_of_further.
Qed.

Section RowView.

Context (now : Z) (rows : list Row) (rels : list Rel) (impact : option Impact).

Let ds := defaultStart now (build_idMap rows).
Let E := edges_of now rows rels impact.
Let early := early_table now rows rels impact.
Let late := late_table now rows rels impact.
Let pf := projectFinish now rows rels impact.

Lemma early_dates_Some k :
  k ∈ keys (build_idMap rows) →
  ∃ t, early !! k = Some t ∧ tES t = Some (ES_of early k) ∧ tEF t = Some (EF_of early k).
Proof.
  intros Hk. apply (early_dom now rows rels impact) in Hk as [t Ht].
  exists t. split; [exact Ht|].
  unfold ES_of, EF_of, early in *. rewrite Ht. simpl.
  apply early_consistent in Ht as (t0 & es & _ & ->). done.
Qed.

Lemma late_dates_view k :
  k ∈ keys (build_idMap rows) →
  ∃ t, late !! k = Some t ∧ tES t = Some (ES_of early k) ∧ tEF t = Some (EF_of early k).
Proof.
  intros Hk. destruct (early_dates_Some k Hk) as (t & Ht & Hes & Hef).
  unfold late, early in *. rewrite late_lookup, Ht. simpl. eexists. split; [done|].
  done.
Qed.

Lemma late_ES_of k : k ∈ keys (build_idMap rows) → ES_of late k = ES_of early k.
Proof.
  intros Hk. destruct (late_dates_view k Hk) as (t & Ht & Hes & _).
  unfold ES_of at 1. by rewrite Ht; simpl; rewrite Hes.
Qed.

Lemma late_EF_of k : k ∈ keys (build_idMap rows) → EF_of late k = EF_of early k.
Proof.
  intros Hk. destruct (late_dates_view k Hk) as (t & Ht & _ & Hef).
  unfold EF_of at 1. by rewrite Ht; simpl; rewrite Hef.
Qed.

Lemma late_limits_view k :
  late_limits early pf (outgoing E k) =
  fold_left (limit_step_view (ES_of early) (EF_of early)) (outgoing E k) (None, None).
Proof.
  unfold late_limits. apply fold_left_ext_in.
  intros e acc [_ He]%list_elem_of_filter.
  apply edges_known in He as [_ Hs].
  destruct (early_dates_Some _ Hs) as (s & Hsl & Hes & Hef).
  by eapply late_limit_step_view.
Qed.

Lemma free_limits_view k :
  fold_left (free_limit_step late pf) (outgoing E k) None =
  fold_left (free_step_view (ES_of early) (EF_of early)) (outgoing E k) None.
Proof.
  apply fold_left_ext_in.
  intros e acc [_ He]%list_elem_of_filter.
  apply edges_known in He as [_ Hs].
  destruct (late_dates_view _ Hs) as (s & Hsl & Hes & Hef).
  rewrite (free_limit_step_view late pf acc e s _ _ Hsl Hes Hef).
  unfold free_step_view. by rewrite late_ES_of, late_EF_of.
Qed.

(** Every returned row of an activity is [solved_row] of its input row. *)
Lemma simulateScenario_solved_row i r k t0 :
  rows !! i = Some r → ActivityID r = Some k →
  prepared now rows impact !! k = Some t0 →
  simulateScenario now rows rels impact !! i =
  Some (solved_row E (ES_of early) (EF_of early) pf (duration t0) k r).
Proof.
  intros Hi Hk Ht0.
  destruct (simulateScenario_lookup_Some now rows rels impact i r k Hi Hk)
    as (t0' & es & Ht0' & Hearly & -> & Hfin).
  simplify_eq. f_equal.
  unfold emit_row. rewrite Hk. simpl. rewrite Hfin.
  unfold float_task, late_task. simpl.
  fold pf E early late ds.
  rewrite (prepared_id now rows impact k t0 Ht0), build_succMap_lookup.
  rewrite free_limits_view, late_limits_view.
  unfold solved_row, ES_of, EF_of, early. rewrite Hearly, Hk. simpl.
  done.
Qed.

End RowView.

(** ** Whole days *)






Lemma aligned_days c d1 d2 : aligned (d1 * DAY_MS) c → aligned c (d2 * DAY_MS).
Proof. intros [q ->]. exists (d2 - d1 - q). lia. Qed.




(** ** The default epoch is the least base date *)



(** ** Bounds and alignment of the early dates *)

Lemma early_start_of_ge base r : base ≤ early_start_of base r.
Proof. destruct r; simpl; lia. Qed.




Section SingleRun.

Context (now : Z) (rows : list Row) (rels : list Rel) (impact : option Impact).

Let ds := defaultStart now (build_idMap rows).
Let E := edges_of now rows rels impact.
Let early := early_table now rows rels impact.
Let st := forward_pass now rows rels impact.
Let pf := projectFinish now rows rels impact.







End SingleRun.

(** ** Moving a schedule in time *)




Lemma min_limit_shift delta lim x :
  min_limit ((λ x, x - delta) <$> lim) (x - delta) = (λ x, x - delta) <$> min_limit lim x.
Proof. unfold min_limit. destruct lim; simpl; f_equal; lia. Qed.


Section ShiftView.

Context (ks : list Z) (ES1 EF1 ES2 EF2 : Z → Z) (c delta : Z).
Context (HES : ∀ j, j ∈ ks → ES2 j = ES1 j - delta).
Context (HEF : ∀ j, j ∈ ks → EF2 j = EF1 j - delta).
Context (HalES : ∀ j, j ∈ ks → aligned c (ES1 j)).
Context (HalEF : ∀ j, j ∈ ks → aligned c (EF1 j)).








End ShiftView.

(** ** Solving a solved schedule again *)


Lemma emit_row_rest tb r : rest (emit_row tb r) = rest r.
Proof. unfold emit_row. by destruct (ActivityID r ≫= _). Qed.



Section Resolve.

Context (now1 now2 : Z) (rows : list Row) (rels : list Rel) (imp : option Impact).
Context (Hne : keys (build_idMap rows) ≠ []).

Let ds1 := defaultStart now1 (build_idMap rows).
Let c := ds1 mod DAY_MS.
Let E := edges_of now1 rows rels imp.









End Resolve.



(** * Further properties of the solver *)


Lemma round_div_mono x y : x ≤ y → round_div x DAY_MS ≤ round_div y DAY_MS.
Proof. intros Hxy. unfold round_div. apply Z.div_le_mono; [done|lia]. Qed.


Lemma activity_ids_keys rows k :
  k ∈ keys (build_idMap rows) ↔ k ∈ activity_ids rows.
Proof.
  unfold activity_ids. rewrite build_idMap_dom, list_elem_of_omap. split.
  - intros [t Ht]. apply build_idMap_lookup in Ht as (i & r & Hi & Hk & _).
    exists r. split; [by eapply list_elem_of_lookup_2|done].
  - intros (r & Hr & Hk). by eapply build_idMap_covers.
Qed.

Lemma row_key rows i r k :
  rows !! i = Some r → ActivityID r = Some k → k ∈ keys (build_idMap rows).
Proof.
  intros Hi Hk. apply build_idMap_dom. eapply build_idMap_covers; [|done].
  by eapply list_elem_of_lookup_2.
Qed.

(** The row stored for an id is the last row that carries it. *)
Lemma build_idMap_defining rows i r k :
  rows !! i = Some r → ActivityID r = Some k →
  (∀ j r2, rows !! j = Some r2 → ActivityID r2 = Some k → (j ≤ i)%nat) →
  tbl (build_idMap rows) !! k = Some (new_task i r k).
Proof.
  intros Hi Hk Hlast.
  destruct (build_idMap_covers rows r k) as [t Ht]; [by eapply list_elem_of_lookup_2|done|].
  pose proof Ht as (i' & r' & Hi' & Hk' & ->)%build_idMap_lookup.
  pose proof (build_idMap_last rows k i' r' Ht i r Hi Hk).
  pose proof (Hlast i' r' Hi' Hk').
  assert (i' = i) as -> by lia. by simplify_eq.
Qed.

Lemma limit_fold_fst (ESf EFf : Z → Z) l lim :
  (fold_left (limit_step_view ESf EFf) l lim).1 = fold_left (free_step_view ESf EFf) l lim.1.
Proof.
  revert lim. induction l as [|e l IH]; intros lim; simpl; [done|].
  rewrite IH. f_equal. unfold limit_step_view, free_step_view. by destruct (eType e).
Qed.

Lemma late_view_ls_le p ef d lim m :
  lim.1 = Some m → (late_view p ef d lim).2 ≤ m - d * DAY_MS.
Proof. unfold late_view. intros ->. destruct lim.2; simpl; lia. Qed.

Section RowFacts.

Context (now : Z) (rows : list Row) (rels : list Rel) (impact : option Impact).

Let ds := defaultStart now (build_idMap rows).
Let E := edges_of now rows rels impact.
Let early := early_table now rows rels impact.
Let pf := projectFinish now rows rels impact.



End RowFacts.



(** X2: the free float returned for an activity is never negative and never
    smaller than its total float: both floats are measured against the same
    limit, the early dates of the successors. *)
Theorem simulateScenario_free_float
    (now : Z) (rows : list Row) (rels : list Rel) (impact : option Impact)
    (i : nat) (r : Row) (k : Z)
    (Hi : rows !! i = Some r) (Hk : ActivityID r = Some k) :
  ∃ r' tf ff,
    simulateScenario now rows rels impact !! i = Some r' ∧
    TotalFloat_d r' = Some tf ∧ FreeFloat_d r' = Some ff ∧ 0 ≤ ff ∧ tf ≤ ff.
Proof.
  pose proof (row_key rows i r k Hi Hk) as Hkey.
  pose proof Hkey as [t0 Ht0]%(prepared_dom now rows impact).
  rewrite (simulateScenario_solved_row now rows rels impact i r k t0 Hi Hk Ht0).
  eexists _, _, _. split; [done|]. simpl. split; [done|]. split; [done|].
  destruct (early_view now rows rels impact k t0 Ht0) as (_ & HEF & _).
  unfold free_float_view.
  pose proof (limit_fold_fst (ES_of (early_table now rows rels impact))
                (EF_of (early_table now rows rels impact))
                (outgoing (edges_of now rows rels impact) k) (None, None)) as Hfst.
  simpl in Hfst. rewrite <- Hfst.
  destruct (fold_left _ _ _).1 as [mc|] eqn:Hmc; [|lia].
  split; [lia|]. etrans; [|apply Z.le_max_r]. apply round_div_mono.
  pose proof (late_view_ls_le (projectFinish now rows rels impact)
                (EF_of (early_table now rows rels impact) k) (duration t0) _ mc Hmc).
  rewrite HEF in *. lia.
Qed.

Lemma simulateScenario_free_float_witness :
  ∃ r' tf ff,
    simulateScenario 0 ff_rows ff_rels None !! 0%nat = Some r' ∧
    TotalFloat_d r' = Some tf ∧ FreeFloat_d r' = Some ff ∧ 0 ≤ ff ∧ tf ≤ ff.
Proof.
  apply (simulateScenario_free_float 0 ff_rows ff_rels None 0
           (activity 1 (Some 0) 10) 1); reflexivity.
Defined.

(** X3: an activity is never scheduled before its baseline: the early start
    returned is on or after the [ES] of the row that defines the activity
    (the last row carrying its id). *)
Theorem simulateScenario_not_before_baseline
    (now : Z) (rows : list Row) (rels : list Rel) (impact : option Impact)
    (i : nat) (r : Row) (k b : Z)
    (Hi : rows !! i = Some r) (Hk : ActivityID r = Some k)
    (Hlast : ∀ j r2, rows !! j = Some r2 → ActivityID r2 = Some k → (j ≤ i)%nat)
    (Hb : ES r = Some b) :
  ∃ r' es,
    simulateScenario now rows rels impact !! i = Some r' ∧
    ES r' = Some es ∧ b ≤ es.
Proof.
  pose proof (build_idMap_defining rows i r k Hi Hk Hlast) as Hdef.
  pose proof (prepared_lookup now rows impact k) as Hprep. rewrite Hdef in Hprep.
  simpl in Hprep.
  rewrite (simulateScenario_solved_row now rows rels impact i r k _ Hi Hk Hprep).
  eexists _, _. split; [done|]. simpl. split; [done|].
  destruct (early_view now rows rels impact k _ Hprep) as (HES & _ & _).
  rewrite HES. unfold forward_ES. rewrite prepare_task_baseES. simpl.
  unfold parseDate. rewrite Hb. simpl. rewrite <- (Z.div_mul b DAY_MS) at 1 by done.
  apply Z.div_le_mono; [done|]. case_decide; [apply early_start_of_ge|done].
Qed.

Lemma simulateScenario_not_before_baseline_witness :
  ∃ r' es,
    simulateScenario 0 cycle_rows cycle_rels None !! 1%nat = Some r' ∧
    ES r' = Some es ∧ 4 ≤ es.
Proof.
  apply (simulateScenario_not_before_baseline 0 cycle_rows cycle_rels None 1
           (activity 2 (Some 4) 3) 2 4); [reflexivity|reflexivity| |reflexivity].
  intros [|[|[|j]]] r2 Hj Hr2; simpl in *; try lia; done.
Defined.





(** ** Precedence *)


Lemma index_of_lookup l i k : NoDup l → l !! i = Some k → index_of k l = i.
Proof.
  revert i. induction l as [|x l IH]; intros i Hnd Hi; [done|].
  apply NoDup_cons in Hnd as [Hx Hnd]. simpl. destruct i as [|i]; simpl in Hi.
  - simplify_eq. by rewrite decide_True.
  - rewrite decide_False; [f_equal; by apply IH|].
    intros ->. apply Hx. by eapply list_elem_of_lookup_2.
Qed.


Section Precedence.

Context (now : Z) (rows : list Row) (rels : list Rel) (impact : option Impact).

Let ds := defaultStart now (build_idMap rows).
Let E := edges_of now rows rels impact.
Let early := early_table now rows rels impact.
Let st := forward_pass now rows rels impact.
Let pf := projectFinish now rows rels impact.


(** The forward loop pops every activity when the relationships have no
    cycle. *)
Lemma acyclic_popped k :
  acyclic E → k ∈ keys (build_idMap rows) → k ∈ topo st.
Proof.
  intros [rk Hrk]. remember (rk k) as n eqn:Hn. revert k Hn.
  induction (lt_wf n) as [n _ IH]. intros k -> Hk.
  apply (topo_closed now rows rels impact k Hk). intros e [Hs He]%list_elem_of_filter.
  apply (IH (rk (ePred e))); [|done|].
  - rewrite <- Hs. by apply Hrk.
  - by apply (edges_known now rows rels impact e He).
Qed.

Lemma popped_acyclic :
  (∀ k, k ∈ keys (build_idMap rows) → k ∈ topo st) → acyclic E.
Proof.
  intros Hall. exists (λ k, index_of k (topo st)). intros e He.
  destruct (edges_known now rows rels impact e He) as [_ Hs].
  apply Hall, list_elem_of_lookup in Hs as [i Hi].
  destruct (topo_order now rows rels impact i (eSucc e) e Hi) as (j & Hj & Hp).
  { by apply list_elem_of_filter. }
  pose proof (topo_NoDup now rows rels impact) as Hnd.
  unfold st in *. cbv beta.
  by rewrite (index_of_lookup _ i (eSucc e) Hnd Hi), (index_of_lookup _ j (ePred e) Hnd Hp).
Qed.

End Precedence.



(** X7: the forward loop pops every activity exactly when the relationships
    between known activities have no cycle. *)
Theorem forward_pass_complete_iff_acyclic
    (now : Z) (rows : list Row) (rels : list Rel) (impact : option Impact) :
  (∀ k, k ∈ keys (build_idMap rows) → k ∈ topo (forward_pass now rows rels impact))
  ↔ acyclic (edges_of now rows rels impact).
Proof.
  split.
  - apply popped_acyclic.
  - intros Hac k. by apply acyclic_popped.
Qed.

(** ** Late dates against early dates *)









(** ** What the result depends on *)

(** The solver reads the relationships and the impact only through the
    prepared table and the list of edges. *)
Lemma simulateScenario_ext now rows rels1 rels2 imp1 imp2 :
  prepared now rows imp1 = prepared now rows imp2 →
  edges_of now rows rels1 imp1 = edges_of now rows rels2 imp2 →
  simulateScenario now rows rels1 imp1 = simulateScenario now rows rels2 imp2.
Proof.
  intros Hp He. rewrite !simulateScenario_unfold.
  unfold final_table, late_table, projectFinish, topoOrder_of, early_table, forward_pass.
  by rewrite Hp, He.
Qed.

Lemma set_duration_same t : set_duration t (duration t) = t.
Proof. by destruct t. Qed.

Lemma filter_filter_iff {A} (P Q : A → Prop)
    `{!∀ x, Decision (P x)} `{!∀ x, Decision (Q x)} (l : list A) :
  (∀ x, P x → Q x) → filter P (filter Q l) = filter P l.
Proof.
  intros HPQ. induction l as [|x l IH]; [done|].
  rewrite !filter_cons. destruct (decide (Q x)) as [HQ|HQ].
  - rewrite filter_cons. destruct (decide (P x)); by rewrite IH.
  - rewrite IH. destruct (decide (P x)) as [HP|HP]; [|done]. destruct HQ. by apply HPQ.
Qed.

(** X10: an impact that targets no known activity, or whose delta is zero,
    gives the schedule of a solve without impact. *)
Theorem simulateScenario_neutral_impact
    (now : Z) (rows : list Row) (rels : list Rel) (imp : Impact)
    (Hneutral : ∀ a, activityId imp = Some a → a ∈ activity_ids rows →
                  deltaDays imp ?? 0 = 0) :
  simulateScenario now rows rels (Some imp) = simulateScenario now rows rels None.
Proof.
  apply simulateScenario_ext; [|by rewrite !edges_of_eq].
  unfold prepared, apply_impact.
  destruct (activityId imp) as [a|] eqn:Ha; [|done].
  destruct (_ !! a) as [hit|] eqn:Hhit; [|done].
  rewrite lookup_fmap in Hhit.
  destruct (tbl (build_idMap rows) !! a) as [t|] eqn:Ht; [|done]. simpl in Hhit.
  rewrite (Hneutral a eq_refl) by (apply activity_ids_keys, build_idMap_dom; by eexists).
  pose proof Ht as (i & r & _ & _ & ->)%build_idMap_lookup. simplify_eq.
  pose proof (deriveDurationDays_nonneg now rows r).
  replace (Z.max 0 _) with (duration (fill_base (defaultStart now (build_idMap rows))
                                        (new_task i r a))) by (simpl; lia).
  rewrite set_duration_same. apply insert_id. by rewrite lookup_fmap, Ht.
Qed.

Lemma simulateScenario_neutral_impact_witness :
  simulateScenario 0 chain_rows chain_rels (Some (mkImpact (Some 9) (Some 4)))
  = simulateScenario 0 chain_rows chain_rels None.
Proof.
  apply (simulateScenario_neutral_impact 0 chain_rows chain_rels (mkImpact (Some 9) (Some 4))).
  intros a [= <-] Ha. vm_compute in Ha. exfalso.
  apply elem_of_cons in Ha as [Ha|Ha]; [done|].
  apply elem_of_cons in Ha as [Ha|Ha]; [done|]. by apply elem_of_nil in Ha.
Defined.

(** X11: relationships with an end that is not an activity of the rows play
    no part: dropping them beforehand gives the same schedule. *)
Theorem simulateScenario_ignores_dangling
    (now : Z) (rows : list Row) (rels : list Rel) (impact : option Impact) :
  simulateScenario now rows
    (filter (λ rel, PredID rel ∈ activity_ids rows ∧ SuccID rel ∈ activity_ids rows) rels)
    impact
  = simulateScenario now rows rels impact.
Proof.
  apply simulateScenario_ext; [done|]. rewrite !edges_of_eq. f_equal.
  apply filter_filter_iff. intros rel [Hp Hs]. by rewrite <- !activity_ids_keys.
Qed.

(** X12: the solver reads a relationship type only through
    [normalizeRelType]: two relationship lists that agree on ends and lags
    and whose types normalise alike give the same schedule. *)
Theorem simulateScenario_rel_type_normalised
    (now : Z) (rows : list Row) (rels1 rels2 : list Rel) (impact : option Impact)
    (Hsame : Forall2 (λ a b, PredID a = PredID b ∧ SuccID a = SuccID b ∧
                             Lag_d a = Lag_d b ∧
                             normalizeRelType (RelTypeRaw a) = normalizeRelType (RelTypeRaw b))
               rels1 rels2) :
  simulateScenario now rows rels1 impact = simulateScenario now rows rels2 impact.
Proof.
  apply simulateScenario_ext; [done|]. rewrite !edges_of_eq.
  induction Hsame as [|a b l1 l2 (Hp & Hs & Hl & Hty) _ IH]; [done|].
  rewrite !filter_cons, Hp, Hs.
  destruct (decide _); [|done]. rewrite !fmap_cons, IH. f_equal.
  unfold normalize_rel. by rewrite Hp, Hs, Hl, Hty.
Qed.

Lemma simulateScenario_rel_type_normalised_witness :
  simulateScenario 0 chain_rows [link 1 2 "fs" 0; link 1 2 "ss" 1] None
  = simulateScenario 0 chain_rows [link 1 2 "finish" 0; link 1 2 "SS" 1] None.
Proof.
  apply (simulateScenario_rel_type_normalised 0 chain_rows
           [link 1 2 "fs" 0; link 1 2 "ss" 1] [link 1 2 "finish" 0; link 1 2 "SS" 1] None).
  repeat constructor.
Defined.

(** ** [normalizeRelType] *)



Lemma toUpperCase_empty s : toUpperCase s = EmptyString ↔ s = EmptyString.
Proof. by destruct s. Qed.


(** * Further properties of the link parser *)

Section ParserShape.

Lemma trimStart_head s :
  trimStart s = EmptyString ∨ ∃ c r, trimStart s = String c r ∧ is_space c = false.
Proof.
  induction s as [|c s IH]; simpl; [by left|].
  destruct (is_space c) eqn:Hc; [done|]. right. by exists c, s.
Qed.

Lemma trimStart_fixed c r : is_space c = false → trimStart (String c r) = String c r.
Proof. intros Hc. simpl. by rewrite Hc. Qed.

Lemma trimEnd_head c r :
  is_space c = false → ∃ r', trimEnd (String c r) = String c r'.
Proof. intros Hc. simpl. rewrite Hc. destruct (trimEnd r); by eexists. Qed.

Lemma trimEnd_idemp s : trimEnd (trimEnd s) = trimEnd s.
Proof.
  induction s as [|c s IH]; simpl; [done|].
  destruct (trimEnd s) as [|d r] eqn:Hs.
  - destruct (is_space c) eqn:Hc; simpl; [done|]. by rewrite Hc.
  - simpl in *. by rewrite IH.
Qed.

Lemma trim_idemp s : trim (trim s) = trim s.
Proof.
  unfold trim.
  assert (trimStart (trimEnd (trimStart s)) = trimEnd (trimStart s)) as ->.
  { destruct (trimStart_head s) as [->|(c & r & -> & Hc)]; [done|].
    destruct (trimEnd_head c r Hc) as [r' ->]. by apply trimStart_fixed. }
  apply trimEnd_idemp.
Qed.

Lemma relType_of_code_Some s c : relType_of_code s = Some c → s = code_of c.
Proof.
  unfold relType_of_code.
  destruct (String.eqb_spec s "FS") as [->|_]; [by intros [= <-]|].
  destruct (String.eqb_spec s "SS") as [->|_]; [by intros [= <-]|].
  destruct (String.eqb_spec s "FF") as [->|_]; [by intros [= <-]|].
  destruct (String.eqb_spec s "SF") as [->|_]; [by intros [= <-]|done].
Qed.

Lemma relType_of_code_code c : relType_of_code (code_of c) = Some c.
Proof. by destruct c. Qed.

Lemma digit_val_nonneg c : is_digit c = true → 0 ≤ digit_val c ≤ 9.
Proof. unfold is_digit, digit_val. intros ?%bool_decide_eq_true. lia. Qed.

Lemma Number_digits_run_nonneg t acc :
  0 ≤ acc →
  0 ≤ fold_left (λ acc c, 10 * acc + digit_val c)
        (list_ascii_of_string (slice_to (digit_run t) t)) acc.
Proof.
  revert acc. induction t as [|c t IH]; intros acc Hacc; simpl; [done|].
  destruct (is_digit c) eqn:Hc; simpl; [|done].
  apply IH. pose proof (digit_val_nonneg c Hc). lia.
Qed.

(** X14: what the parser returns.  It returns [null] exactly on blank
    tokens and does not look at surrounding white space; an edge it returns
    has the successor it was given, a predecessor id that is not negative,
    one of the four type codes in canonical spelling, and a lag. *)
Theorem parseLinkToken_shape (token : string) (succId : Z) :
  (parseLinkToken token succId = None ↔ trim token = EmptyString) ∧
  parseLinkToken (trim token) succId = parseLinkToken token succId ∧
  ∀ rel, parseLinkToken token succId = Some rel →
    SuccID rel = succId ∧ 0 ≤ PredID rel ∧
    code_of (normalizeRelType (RelTypeRaw rel)) = RelTypeRaw rel ∧
    is_Some (Lag_d rel).
Proof.
  split_and!.
  - unfold parseLinkToken.
    destruct (String.eqb_spec (trim token) EmptyString) as [Heq|Hne]; [done|].
    split; [done|]. intros Heq. by destruct Hne.
  - unfold parseLinkToken. by rewrite trim_idemp.
  - unfold parseLinkToken.
    destruct (String.eqb_spec (trim token) EmptyString) as [Heq|Hne]; [done|].
    intros rel [= <-]. simpl. split; [done|]. split.
    { by apply Number_digits_run_nonneg. }
    split; [|by eexists].
    destruct (relType_of_code (toUpperCase _)) as [c|] eqn:Hc; simpl; [|done].
    apply relType_of_code_Some in Hc. rewrite Hc.
    by destruct c.
Qed.

End ParserShape.

Section ParserTokens.

#[local] Open Scope string_scope.

Lemma no_space_trim s : no_space s = true → trim s = s.
Proof.
  intros Hs. unfold trim.
  assert (trimStart s = s) as ->.
  { destruct s as [|c s]; simpl in *; [done|]. by destruct (is_space c). }
  induction s as [|c s IH]; simpl in *; [done|].
  apply andb_prop in Hs as [Hc Hs]. rewrite IH by done.
  destruct s; [|done]. by destruct (is_space c).
Qed.

Lemma no_space_app a b : no_space (a +:+ b) = no_space a && no_space b.
Proof. induction a as [|c a IH]; simpl; [done|]. by rewrite IH, andb_assoc. Qed.

Lemma is_digit_not_space c : is_digit c = true → is_space c = false.
Proof.
  unfold is_digit, is_space. intros ?%bool_decide_eq_true.
  apply bool_decide_eq_false. lia.
Qed.

Lemma all_digits_no_space n : all_digits n = true → no_space n = true.
Proof.
  induction n as [|c n IH]; simpl; [done|]. intros [Hc Hn]%andb_prop.
  by rewrite (is_digit_not_space c Hc), IH.
Qed.

Lemma digit_run_app n rest :
  all_digits n = true → digit_run rest = O → digit_run (n +:+ rest) = String.length n.
Proof.
  intros Hn Hrest. induction n as [|c n IH]; simpl in *; [done|].
  apply andb_prop in Hn as [Hc Hn]. rewrite Hc. f_equal. by apply IH.
Qed.

Lemma slice_to_app n rest : slice_to (String.length n) (n +:+ rest) = n.
Proof. induction n as [|c n IH]; simpl; [by destruct rest|by rewrite IH]. Qed.

Lemma slice_from_app n rest : slice_from (String.length n) (n +:+ rest) = rest.
Proof. induction n as [|c n IH]; simpl; [by destruct rest|done]. Qed.

Lemma append_empty_r s : s +:+ EmptyString = s.
Proof.
  induction s as [|c s IH]; [done|].
  change (String c (s +:+ EmptyString) = String c s). by rewrite IH.
Qed.

Lemma indexOf_digits c m :
  is_digit c = false → all_digits m = true → indexOf c m = None.
Proof.
  intros Hc. induction m as [|d m IH]; simpl; [done|]. intros [Hd Hm]%andb_prop.
  destruct (Ascii.eqb_spec c d) as [->|_]; [congruence|]. by rewrite IH.
Qed.

Lemma skip_blanks_digits m : all_digits m = true → skip_blanks m = m.
Proof.
  destruct m as [|d m]; simpl; [done|]. intros [Hd _]%andb_prop.
  destruct (Ascii.eqb_spec d " ") as [->|_]; [done|done].
Qed.

(** The lag clause [+m] or [-m] with [m] a run of digits. *)
Lemma parse_lag_signed m :
  all_digits m = true → m ≠ EmptyString →
  parse_lag (String "+" m) = Number_digits m ∧
  parse_lag (String "-" m) = (- Number_digits m)%Z.
Proof.
  intros Hm Hne. unfold parse_lag.
  pose proof (digit_run_app m EmptyString Hm eq_refl) as Hrun.
  rewrite append_empty_r in Hrun.
  pose proof (slice_to_app m EmptyString) as Hto. rewrite append_empty_r in Hto.
  split; simpl.
  - rewrite (indexOf_digits "-" m) by done. simpl.
    rewrite skip_blanks_digits, Hrun, Hto by done.
    destruct (String.eqb_spec m EmptyString) as [?|_]; [done|]. lia.
  - rewrite (indexOf_digits "+" m) by done. simpl.
    rewrite skip_blanks_digits, Hrun, Hto by done.
    destruct (String.eqb_spec m EmptyString) as [?|_]; [done|]. lia.
Qed.

Lemma relType_of_code_sign x :
  relType_of_code (String (upper_ascii "+") x) = None ∧
  relType_of_code (String (upper_ascii "-") x) = None.
Proof. split; reflexivity. Qed.

(** What the parser does on a token that is a run of digits followed by
    [rest], when neither has white space. *)
Lemma parseLinkToken_id_rest n rest succId :
  all_digits n = true → n ≠ EmptyString →
  digit_run rest = O → no_space rest = true →
  parseLinkToken (n +:+ rest) succId =
  let maybeType := toUpperCase (slice_to 2 rest) in
  let typed := match relType_of_code maybeType with
               | Some _ => (maybeType, trim (slice_from 2 rest))
               | None => ("FS", rest)
               end in
  Some {| PredID := Number_digits n; SuccID := succId; RelTypeRaw := typed.1;
          Lag_d := Some (parse_lag typed.2) |}.
Proof.
  intros Hn Hne Hrest Hsp. unfold parseLinkToken.
  rewrite (no_space_trim (n +:+ rest))
    by (by rewrite no_space_app, all_digits_no_space, Hsp).
  destruct (String.eqb_spec (n +:+ rest) EmptyString) as [Heq|_].
  { destruct n; [done|discriminate]. }
  rewrite digit_run_app, slice_to_app, slice_from_app by done.
  by rewrite (no_space_trim rest).
Qed.

(** X15: well-formed tokens.  A predecessor id [n] written in digits, then
    optionally a type code in either letter case, then optionally a signed
    lag [m] written in digits, parse to exactly these fields; the type
    defaults to FS and the lag to 0. *)
Theorem parseLinkToken_well_formed
    (n ty m : string) (c : RelType) (succId : Z)
    (Hn : all_digits n = true) (Hn0 : n ≠ EmptyString)
    (Hm : all_digits m = true) (Hm0 : m ≠ EmptyString)
    (Hty : toUpperCase ty = code_of c) :
  parseLinkToken n succId
    = Some (mkRel (Number_digits n) succId "FS" (Some 0%Z)) ∧
  parseLinkToken (n +:+ ty) succId
    = Some (mkRel (Number_digits n) succId (code_of c) (Some 0%Z)) ∧
  parseLinkToken (n +:+ "+" +:+ m) succId
    = Some (mkRel (Number_digits n) succId "FS" (Some (Number_digits m))) ∧
  parseLinkToken (n +:+ "-" +:+ m) succId
    = Some (mkRel (Number_digits n) succId "FS" (Some (- Number_digits m)%Z)) ∧
  parseLinkToken (n +:+ ty +:+ "+" +:+ m) succId
    = Some (mkRel (Number_digits n) succId (code_of c) (Some (Number_digits m))) ∧
  parseLinkToken (n +:+ ty +:+ "-" +:+ m) succId
    = Some (mkRel (Number_digits n) succId (code_of c) (Some (- Number_digits m)%Z)).
Proof.
  assert (∃ a b, ty = String a (String b EmptyString)) as (a & b & ->).
  { destruct ty as [|a [|b [|? ?]]]; destruct c; simpl in Hty; try discriminate Hty;
      by eexists _, _. }
  assert (is_digit a = false ∧ is_space a = false ∧ is_space b = false) as (Hda & Hsa & Hsb).
  { destruct c; simpl in Hty; injection Hty as Ha Hb;
      destruct a as [[] [] [] [] [] [] [] []]; try discriminate;
      destruct b as [[] [] [] [] [] [] [] []]; try discriminate; done. }
  pose proof (all_digits_no_space m Hm) as Hsm.
  assert (∃ d m', m = String d m') as (d & m' & Hmd) by (destruct m; [done|by eexists _, _]).
  destruct (parse_lag_signed m Hm Hm0) as [Hplus Hminus].
  split_and!.
  - rewrite <- (append_empty_r n) at 1.
    by rewrite parseLinkToken_id_rest.
  - rewrite parseLinkToken_id_rest; [|done|done|simpl; by rewrite Hda|simpl; by rewrite Hsa, Hsb].
    cbv zeta. simpl slice_to. rewrite Hty, relType_of_code_code. done.
  - change ("+" +:+ m) with (String "+" m).
    rewrite parseLinkToken_id_rest; [|done|done|done|simpl; by rewrite Hsm].
    cbv zeta. rewrite Hmd. simpl slice_to. simpl toUpperCase.
    rewrite (proj1 (relType_of_code_sign _)). cbn [fst snd]. rewrite <- Hmd.
    by rewrite Hplus.
  - change ("-" +:+ m) with (String "-" m).
    rewrite parseLinkToken_id_rest; [|done|done|done|simpl; by rewrite Hsm].
    cbv zeta. rewrite Hmd. simpl slice_to. simpl toUpperCase.
    rewrite (proj2 (relType_of_code_sign _)). cbn [fst snd]. rewrite <- Hmd.
    by rewrite Hminus.
  - change (String a (String b EmptyString) +:+ "+" +:+ m)
      with (String a (String b (String "+" m))).
    rewrite parseLinkToken_id_rest;
      [|done|done|simpl; by rewrite Hda|simpl; by rewrite Hsa, Hsb, Hsm].
    cbv zeta. simpl slice_to. rewrite Hty, relType_of_code_code. simpl slice_from.
    rewrite (no_space_trim (String "+" m)) by (simpl; by rewrite Hsm).
    cbn -[parse_lag Number_digits]. by rewrite Hplus.
  - change (String a (String b EmptyString) +:+ "-" +:+ m)
      with (String a (String b (String "-" m))).
    rewrite parseLinkToken_id_rest;
      [|done|done|simpl; by rewrite Hda|simpl; by rewrite Hsa, Hsb, Hsm].
    cbv zeta. simpl slice_to. rewrite Hty, relType_of_code_code. simpl slice_from.
    rewrite (no_space_trim (String "-" m)) by (simpl; by rewrite Hsm).
    cbn -[parse_lag Number_digits]. by rewrite Hminus.
Qed.

Lemma parseLinkToken_well_formed_witness :
  parseLinkToken "12" 7
    = Some (mkRel (Number_digits "12") 7 "FS" (Some 0%Z)) ∧
  parseLinkToken ("12" +:+ "ss") 7
    = Some (mkRel (Number_digits "12") 7 (code_of SS) (Some 0%Z)) ∧
  parseLinkToken ("12" +:+ "+" +:+ "30") 7
    = Some (mkRel (Number_digits "12") 7 "FS" (Some (Number_digits "30"))) ∧
  parseLinkToken ("12" +:+ "-" +:+ "30") 7
    = Some (mkRel (Number_digits "12") 7 "FS" (Some (- Number_digits "30")%Z)) ∧
  parseLinkToken ("12" +:+ "ss" +:+ "+" +:+ "30") 7
    = Some (mkRel (Number_digits "12") 7 (code_of SS) (Some (Number_digits "30"))) ∧
  parseLinkToken ("12" +:+ "ss" +:+ "-" +:+ "30") 7
    = Some (mkRel (Number_digits "12") 7 (code_of SS) (Some (- Number_digits "30")%Z)).
Proof.
  apply (parseLinkToken_well_formed "12" "ss" "30" SS 7); done.
Defined.

End ParserTokens.

(** * Links from a predecessor column *)

Section PredecessorCells.

Lemma split_seps_no_sep f t : no_sep t = true → split_seps f t = [t].
Proof.
  revert f. induction t as [|c t IH]; intros f Ht; simpl in *; [done|].
  apply andb_prop in Ht as [Hc Ht]. apply negb_true_iff in Hc. rewrite Hc.
  by rewrite IH.
Qed.

Lemma append_cons c a b : String c a +:+ b = String c (a +:+ b).
Proof. done. Qed.

(** Splitting [a], a separator, then [b]: the pieces of [a], where a
    trailing empty piece is dropped, then the pieces of [b]. *)
Lemma split_seps_app f a sep b :
  is_sep sep = true →
  ∃ l, split_seps f (a +:+ String sep b) = l ++ split_seps true b ∧
       (split_seps f a = l ∨ split_seps f a = l ++ [EmptyString]) ∧
       (f = false → l ≠ []).
Proof.
  intros Hsep. revert f. induction a as [|c a IH]; intros f.
  - change (EmptyString +:+ String sep b) with (String sep b). simpl. rewrite Hsep.
    destruct f.
    + exists []. split; [done|]. split; [by right|done].
    + exists [EmptyString]. split; [done|]. split; [by left|done].
  - rewrite append_cons. simpl. destruct (is_sep c) eqn:Hc.
    + destruct (IH true) as (l & Hl & Ha & _). destruct f.
      * exists l. split; [done|]. split; [done|done].
      * exists (EmptyString :: l). rewrite Hl. split; [done|].
        split; [|done]. destruct Ha as [->| ->]; [by left|by right].
    + destruct (IH false) as (l & Hl & Ha & Hne). rewrite Hl.
      destruct l as [|p ps]; [by destruct Hne|].
      exists (String c p :: ps). split; [done|]. split; [|done].
      destruct Ha as [->| ->]; [by left|by right].
Qed.

Lemma split_seps_flag b :
  split_seps false b = split_seps true b ∨
  split_seps false b = EmptyString :: split_seps true b.
Proof. destruct b as [|c b]; simpl; [by left|]. destruct (is_sep c); [by right|by left]. Qed.

Lemma parseLinkToken_empty succ : parseLinkToken EmptyString succ = None.
Proof. done. Qed.

Lemma links_split_app succ a sep b :
  is_sep sep = true →
  omap (λ p, parseLinkToken p succ) (split_seps false (a +:+ String sep b)) =
  omap (λ p, parseLinkToken p succ) (split_seps false a) ++
  omap (λ p, parseLinkToken p succ) (split_seps false b).
Proof.
  intros Hsep. destruct (split_seps_app false a sep b Hsep) as (l & -> & Ha & _).
  rewrite omap_app. f_equal.
  - destruct Ha as [->| ->]; [done|]. rewrite omap_app.
    change (omap (λ p, parseLinkToken p succ) [EmptyString]) with (@nil Rel).
    by rewrite app_nil_r.
  - by destruct (split_seps_flag b) as [->| ->].
Qed.

(** X16: a predecessor cell is read token by token.  Whatever the tokens
    are, as long as none contains a separator, the links of a cell that
    lists them with commas or semicolons in between are the links of the
    tokens, in order, blank tokens giving none. *)
Theorem buildLinksFromPredecessors_cell
    (succ : Z) (t : string) (more : list (ascii * string))
    (Ht : no_sep t = true)
    (Hmore : Forall (λ st, is_sep st.1 = true ∧ no_sep st.2 = true) more) :
  buildLinksFromPredecessors [mkLinkRow (Some succ) (Some (cell_of t more))]
  = omap (λ p, parseLinkToken p succ) (t :: more.*2).
Proof.
  assert (omap (λ p, parseLinkToken p succ) (split_seps false (cell_of t more))
          = omap (λ p, parseLinkToken p succ) (t :: more.*2)) as Hsplit.
  { revert t Ht. induction Hmore as [|[sep t'] more [Hsep Ht'] _ IH]; intros t Ht.
    - simpl cell_of. by rewrite split_seps_no_sep.
    - simpl cell_of. rewrite links_split_app by done.
      rewrite (IH t' Ht'), (split_seps_no_sep false t Ht).
      change (t :: ((sep, t') :: more).*2) with ([t] ++ (t' :: more.*2)).
      by rewrite omap_app. }
  rewrite <- Hsplit.
  change (buildLinksFromPredecessors [mkLinkRow (Some succ) (Some (cell_of t more))])
    with (links_of_row (mkLinkRow (Some succ) (Some (cell_of t more))) ++ []).
  rewrite app_nil_r. unfold links_of_row. cbn [succ_cell pred_cell].
  destruct (String.eqb_spec (cell_of t more) EmptyString) as [Heq|_]; [by rewrite Heq|done].
Qed.

Lemma buildLinksFromPredecessors_cell_witness :
  buildLinksFromPredecessors
    [mkLinkRow (Some 30) (Some (cell_of "10" [(","%char, " 20SS+2"); (";"%char, "")]))]
  = omap (λ p, parseLinkToken p 30) ("10" :: [(","%char, " 20SS+2"); (";"%char, "")].*2).
Proof.
  apply (buildLinksFromPredecessors_cell 30 "10" [(","%char, " 20SS+2"); (";"%char, "")]).
  - reflexivity.
  - repeat constructor.
Defined.

End PredecessorCells.
